(** * Tool groups of the RDS OpenAPI MCP server

    A shallow embedding of
    [src/alibabacloud_rds_openapi_mcp_server/toolsets/toolsets.py] and
    [toolsets/tools.py]: the [ToolsetManager] registry, the [ToolsetMCP]
    decorator front end and the start-up routine [initialize_toolsets].

    Python objects of class [_ToolInfo] are shared between the dictionary
    [_tools] and the lists held in [groups]; they live in an object store
    and both containers hold references into it, so that the assignment
    [info.group = group] of [set_group] is seen through every alias. *)

From Stdlib Require Import Ascii String.
From stdpp Require Import base option list gmap strings.

Local Open Scope string_scope.
Local Open Scope list_scope.
Local Open Scope stdpp_scope.

(** ** Exceptions and the error monad *)

(** [KeyError] is what [d[k]] raises on a missing key; [HostError] stands for
    whatever the host's [FastMCP.tool] raises, with an opaque payload.
    [InvalidRef] is no Python exception: it is the model's answer when a
    reference is followed that the object store does not hold, which Python
    excludes by construction and [Inv] excludes for the registry. *)
Inductive exn :=
  | KeyError (key : string)
  | HostError (payload : string)
  | InvalidRef (l : nat).

Inductive result (A : Type) :=
  | Ok (a : A)
  | Raise (e : exn).
Arguments Ok {A} a.
Arguments Raise {A} e.

#[global] Instance result_ret : MRet result := λ A a, Ok a.
#[global] Instance result_bind : MBind result := λ A B f r,
  match r with
  | Ok a => f a
  | Raise e => Raise e
  end.

(** ** Insertion-ordered dictionaries

    A Python [dict] keeps its keys in the order of their first insertion;
    assigning to a key that is present replaces the value where it stands. *)
Section pydict.
Context {K V : Type} `{EqDecision K}.

Definition pydict := list (K * V).

Fixpoint dict_get (d : pydict) (k : K) : option V :=
  match d with
  | [] => None
  | (k', v) :: d' => if decide (k' = k) then Some v else dict_get d' k
  end.

Definition dict_contains (d : pydict) (k : K) : bool :=
  bool_decide (is_Some (dict_get d k)).

(** [d[k] = v] *)
Fixpoint dict_set (d : pydict) (k : K) (v : V) : pydict :=
  match d with
  | [] => [(k, v)]
  | (k', v') :: d' =>
      if decide (k' = k) then (k, v) :: d' else (k', v') :: dict_set d' k v
  end.

Definition dict_keys (d : pydict) : list K := d.*1.
Definition dict_values (d : pydict) : list V := d.*2.
End pydict.
Arguments pydict : clear implicits.

(** [d[k]] for a dictionary keyed by strings. *)
Definition dict_getitem {V} (d : pydict string V) (k : string) : result V :=
  match dict_get d k with
  | Some v => Ok v
  | None => Raise (KeyError k)
  end.

(** ** The data model *)

(** A callable is used as a dictionary key and compared with [!=]; functions
    hash and compare by identity, which a number stands for. *)
Abbreviation Callable := nat (only parsing).

(** Values of type [Any]: the registry never looks inside them. *)
Inductive Any :=
  | PyNone
  | PyBool (b : bool)
  | PyInt (z : Z)
  | PyStr (s : string).

(** References to [_ToolInfo] objects. *)
Abbreviation loc := nat (only parsing).

Record _ToolInfo := ToolInfo {
  func : Callable;
  args : list Any;
  kwargs : list (string * Any);
  group : string;
}.

Record ToolsetManager := Manager {
  store : list _ToolInfo;
  _tools : pydict Callable loc;
  groups : pydict string (list loc);
  enabled : gset string;
}.

(** [ToolsetManager.__init__] *)
Definition ToolsetManager_init : ToolsetManager :=
  {| store := []; _tools := []; groups := []; enabled := ∅ |}.

(** Following a reference: [info.func], [info.group] and the like. *)
Definition deref (st : list _ToolInfo) (info : loc) : result _ToolInfo :=
  match st !! info with
  | Some o => Ok o
  | None => Raise (InvalidRef info)
  end.

(** [_ToolInfo(func=..., args=..., kwargs=..., group=...)]: a new object,
    distinct from every object allocated before. *)
Definition new_ToolInfo (st : list _ToolInfo) (o : _ToolInfo) : loc * list _ToolInfo :=
  (List.length st, st ++ [o]).

Definition set_info_group (o : _ToolInfo) (g : string) : _ToolInfo :=
  {| func := func o; args := args o; kwargs := kwargs o; group := g |}.

(** [[i for i in members if i.func != func]] *)
Fixpoint without_func (st : list _ToolInfo) (f : Callable) (members : list loc)
    : result (list loc) :=
  match members with
  | [] => Ok []
  | i :: rest =>
      o ← deref st i;
      kept ← without_func st f rest;
      Ok (if decide (func o ≠ f) then i :: kept else kept)
  end.

(** The statement shared by [add_tool] and [set_group]:
[[
    if g in self.groups:
        self.groups[g] = [i for i in self.groups[g] if i.func != func]
]] *)
Definition drop_from_group (self : ToolsetManager) (g : string) (f : Callable)
    : result ToolsetManager :=
  if dict_contains (groups self) g then
    members ← dict_getitem (groups self) g;
    kept ← without_func (store self) f members;
    Ok {| store := store self; _tools := _tools self;
          groups := dict_set (groups self) g kept; enabled := enabled self |}
  else Ok self.

(** [self.groups.setdefault(g, []).append(info)] *)
Definition group_append (gs : pydict string (list loc)) (g : string) (info : loc)
    : pydict string (list loc) :=
  match dict_get gs g with
  | Some members => dict_set gs g (members ++ [info])
  | None => dict_set gs g [info]
  end.

(** ** The registry operations *)

Definition add_tool (self : ToolsetManager) (f : Callable) (g : option string)
    (a : option (list Any)) (kw : option (list (string * Any)))
    : result ToolsetManager :=
  let g := default "default" g in
  let a := default [] a in
  let kw := default [] kw in
  self ← match dict_get (_tools self) f with
         | Some info =>
             (* remove from previous group list if re-added *)
             o ← deref (store self) info;
             drop_from_group self (group o) f
         | None => Ok self
         end;
  let '(info, st) :=
    new_ToolInfo (store self) {| func := f; args := a; kwargs := kw; group := g |} in
  Ok {| store := st;
        _tools := dict_set (_tools self) f info;
        groups := group_append (groups self) g info;
        enabled := enabled self |}.

Definition set_group (self : ToolsetManager) (f : Callable) (g : string)
    : result ToolsetManager :=
  match dict_get (_tools self) f with
  | None =>
      (* tool not registered yet; add directly *)
      add_tool self f (Some g) None None
  | Some info =>
      o ← deref (store self) info;
      if decide (group o = g) then Ok self
      else
        (* remove from old group *)
        let old_group := group o in
        self ← drop_from_group self old_group f;
        o ← deref (store self) info;
        Ok {| store := <[info := set_info_group o g]> (store self);
              _tools := _tools self;
              groups := group_append (groups self) g info;
              enabled := enabled self |}
  end.

(** [enable(self, *groups)] *)
Definition enable (self : ToolsetManager) (gs : list string) : ToolsetManager :=
  {| store := store self; _tools := _tools self; groups := groups self;
     enabled := foldl (λ s g, {[ g ]} ∪ s) (enabled self) gs |}.

Definition get_registered_groups (self : ToolsetManager) : list string :=
  dict_keys (groups self).

(** [list(self.enabled)]: the elements in the order the set yields them. *)
Definition get_enabled_groups (self : ToolsetManager) : list string :=
  elements (enabled self).

(** [[info.func for info in members]] *)
Fixpoint funcs_of (st : list _ToolInfo) (members : list loc) : result (list Callable) :=
  match members with
  | [] => Ok []
  | i :: rest =>
      o ← deref st i;
      fs ← funcs_of st rest;
      Ok (func o :: fs)
  end.

(** The loop of [get_enabled_tools] over the names the set yields. *)
Fixpoint enabled_tools_loop (self : ToolsetManager) (names : list string)
    (res : gmap string (list Callable)) : result (gmap string (list Callable)) :=
  match names with
  | [] => Ok res
  | name :: rest =>
      fs ← funcs_of (store self) (default [] (dict_get (groups self) name));
      enabled_tools_loop self rest (<[name := fs]> res)
  end.

Definition get_enabled_tools (self : ToolsetManager)
    : result (gmap string (list Callable)) :=
  enabled_tools_loop self (elements (enabled self)) ∅.

(** ** Activation

    The host is any state [FastMCP] with the primitive
    [FastMCP.tool(mcp, *args, **kwargs)(func)]: it returns the host as the
    call has left it and the exception it raised, if any. *)
Section host.
Context {FastMCP : Type}.
Variable FastMCP_tool :
  FastMCP → list Any → list (string * Any) → Callable → FastMCP * option exn.

(** The [for] loop of [register_enabled] over [self._tools.values()]. *)
Fixpoint register_loop (self : ToolsetManager) (infos : list loc) (mcp : FastMCP)
    : FastMCP * option exn :=
  match infos with
  | [] => (mcp, None)
  | info :: rest =>
      match deref (store self) info with
      | Raise e => (mcp, Some e)
      | Ok o =>
          if decide (group o ∈ enabled self) then
            match FastMCP_tool mcp (args o) (kwargs o) (func o) with
            | (mcp', None) => register_loop self rest mcp'
            | (mcp', Some e) => (mcp', Some e)
            end
          else register_loop self rest mcp
      end
  end.

Definition register_enabled (self : ToolsetManager) (mcp : FastMCP)
    : FastMCP * option exn :=
  register_loop self (dict_values (_tools self)) mcp.
End host.

(** One call of the host's primitive: the operation with its positional and
    keyword parameters. *)
Definition registration := (Callable * list Any * list (string * Any))%type.

(** A host that accepts every registration and keeps the calls it received,
    oldest first. *)
Definition recording_tool (log : list registration) (a : list Any)
    (kw : list (string * Any)) (f : Callable) : list registration * option exn :=
  (log ++ [(f, a, kw)], None).

(** A host wrapped so that every call of its primitive is written down
    together with what the call raised. *)
Definition traced_tool {FastMCP : Type}
    (tool : FastMCP → list Any → list (string * Any) → Callable → FastMCP * option exn)
    (mcp : FastMCP * list (registration * option exn)) (a : list Any)
    (kw : list (string * Any)) (f : Callable)
    : (FastMCP * list (registration * option exn)) * option exn :=
  let '(mcp', r) := tool mcp.1 a kw f in
  ((mcp', mcp.2 ++ [((f, a, kw), r)]), r).

(** ** [ToolsetMCP]: the decorator front end *)

(** [ToolsetMCP.tool(self, *dargs, group=..., **dkwargs)(func)], on the manager the
    MCP instance owns. *)
Definition ToolsetMCP_tool (manager : ToolsetManager) (dargs : list Any)
    (g : option string) (dkwargs : list (string * Any)) (f : Callable)
    : result ToolsetManager :=
  add_tool manager f (Some (default "default" g)) (Some dargs) (Some dkwargs).

(** [ToolsetMCP.register_enabled_tools], with the host primitive of the base
    class. *)
Definition register_enabled_tools {FastMCP : Type}
    (FastMCP_tool : FastMCP → list Any → list (string * Any) → Callable
                    → FastMCP * option exn)
    (manager : ToolsetManager) (mcp : FastMCP) : FastMCP * option exn :=
  register_enabled FastMCP_tool manager mcp.

(** ** Sequences of calls on a registry *)

Inductive call :=
  | AddTool (f : Callable) (g : option string) (a : option (list Any))
      (kw : option (list (string * Any)))
  | SetGroup (f : Callable) (g : string)
  | Enable (gs : list string).

Definition step (self : ToolsetManager) (c : call) : result ToolsetManager :=
  match c with
  | AddTool f g a kw => add_tool self f g a kw
  | SetGroup f g => set_group self f g
  | Enable gs => Ok (enable self gs)
  end.

Fixpoint run (self : ToolsetManager) (cs : list call) : result ToolsetManager :=
  match cs with
  | [] => Ok self
  | c :: cs' => self' ← step self c; run self' cs'
  end.

(** The registries a program can build: a fresh one, then any calls. *)
Definition reachable (m : ToolsetManager) : Prop :=
  ∃ cs, run ToolsetManager_init cs = Ok m.

(** ** Observations used in the statements *)

(** The record the registry holds for an operation, if any. *)
Definition record_of (m : ToolsetManager) (f : Callable) : option _ToolInfo :=
  info ← dict_get (_tools m) f; store m !! info.

(** [self.groups.get(g, [])] *)
Definition members_of (m : ToolsetManager) (g : string) : list loc :=
  default [] (dict_get (groups m) g).

(** How many entries of group [g]'s list are records of operation [f]. *)
Definition occurrences (m : ToolsetManager) (g : string) (f : Callable) : nat :=
  List.length (filter (λ i, func <$> store m !! i = Some f) (members_of m g)).

(** ** The registry invariant

    [hide] names an operation that is between the two halves of a move: its
    record is in no group's list.  [Inv] is the invariant with nothing
    hidden. *)
Definition tool_ok (m : ToolsetManager) (f : Callable) : Prop :=
  ∀ l, dict_get (_tools m) f = Some l →
    ∃ o, store m !! l = Some o ∧ func o = f ∧ l ∈ members_of m (group o).

Definition group_ok (m : ToolsetManager) (hide : option Callable)
    (g : string) (ls : list loc) : Prop :=
  NoDup ls ∧
  ∀ l, l ∈ ls →
    ∃ o, store m !! l = Some o ∧ group o = g ∧
         dict_get (_tools m) (func o) = Some l ∧ Some (func o) ≠ hide.

Record Inv_gen (hide : option Callable) (m : ToolsetManager) : Prop := {
  inv_tools_keys : NoDup (dict_keys (_tools m));
  inv_groups_keys : NoDup (dict_keys (groups m));
  inv_tools : ∀ f, Some f ≠ hide → tool_ok m f;
  inv_groups : ∀ g ls, dict_get (groups m) g = Some ls → group_ok m hide g ls;
}.

Definition Inv : ToolsetManager → Prop := Inv_gen None.

(** The manager between the removal from the old list and the append to the
    new one. *)
Definition dropped (m : ToolsetManager) (g : string) (f : Callable) : ToolsetManager :=
  {| store := store m; _tools := _tools m;
     groups := dict_set (groups m) g
                 (filter (λ i, func <$> store m !! i ≠ Some f) (members_of m g));
     enabled := enabled m |}.

(** The second half: a record of [f] at [l], labelled [group o], is put into
    the tool map and at the end of its group's list. *)
Definition attached (m : ToolsetManager) (st' : list _ToolInfo) (f : Callable)
    (g : string) (l : loc) : ToolsetManager :=
  {| store := st'; _tools := dict_set (_tools m) f l;
     groups := group_append (groups m) g l; enabled := enabled m |}.

(** What [add_tool] returns, whichever branch it takes. *)
Definition add_tool_result (m : ToolsetManager) (f : Callable) (g : string)
    (a : list Any) (kw : list (string * Any)) : ToolsetManager :=
  let mid := match record_of m f with
             | Some o => dropped m (group o) f
             | None => m
             end in
  attached mid (store m ++ [ToolInfo f a kw g]) f g (List.length (store m)).

(** What [set_group] returns when it moves a record between groups. *)
Definition set_group_moved (m : ToolsetManager) (f : Callable) (g : string)
    (l : loc) (o : _ToolInfo) : ToolsetManager :=
  attached (dropped m (group o) f) (<[l := set_info_group o g]> (store m)) f g l.

(** ** Further observations *)

(** The entries of group [g]'s list that are records of operation [f]. *)
Definition entries (m : ToolsetManager) (g : string) (f : Callable) : list loc :=
  filter (λ i, func <$> store m !! i = Some f) (members_of m g).

(** Handing a list of registrations to the host, one after the other, until
    one of them raises. *)
Fixpoint replay {FastMCP : Type}
    (tool : FastMCP → list Any → list (string * Any) → Callable → FastMCP * option exn)
    (calls : list registration) (mcp : FastMCP) : FastMCP * option exn :=
  match calls with
  | [] => (mcp, None)
  | (f, a, kw) :: rest =>
      match tool mcp a kw f with
      | (mcp', None) => replay tool rest mcp'
      | (mcp', Some e) => (mcp', Some e)
      end
  end.

(** Whether the record the registry holds for [f] names an enabled group. *)
Definition tool_enabled (m : ToolsetManager) (f : Callable) : bool :=
  match record_of m f with
  | Some o => bool_decide (group o ∈ enabled m)
  | None => false
  end.

(** The registration a reference stands for, when its group is enabled. *)
Definition selected_at (m : ToolsetManager) (l : loc) : option registration :=
  o ← store m !! l;
  if decide (group o ∈ enabled m) then Some (func o, args o, kwargs o) else None.

Definition selected (m : ToolsetManager) : list registration :=
  omap (selected_at m) (dict_values (_tools m)).

(** ** A registry used in the examples: three tools, two of them in [rds],
    one moved from the default group to [custom]. *)
Definition demo_calls : list call :=
  [ AddTool 1 (Some "rds") (Some [PyStr "describe"]) None;
    AddTool 2 None None None;
    AddTool 3 (Some "rds") None (Some [("name", PyStr "attr")]);
    SetGroup 2 "custom";
    Enable ["rds"; "custom"] ].

Definition demo_manager : ToolsetManager :=
  {| store := [ ToolInfo 1 [PyStr "describe"] [] "rds";
                ToolInfo 2 [] [] "custom";
                ToolInfo 3 [] [("name", PyStr "attr")] "rds" ];
     _tools := [(1, 0); (2, 1); (3, 2)];
     groups := [("rds", [0; 2]); ("default", []); ("custom", [1])];
     enabled := {[ "custom" ]} ∪ ({[ "rds" ]} ∪ ∅) |}.

(** A host that refuses operation [2] and keeps the names of the others. *)
Definition flaky_tool (mcp : list Callable) (a : list Any)
    (kw : list (string * Any)) (f : Callable) : list Callable * option exn :=
  if decide (f = 2) then (mcp, Some (HostError "refused")) else (mcp ++ [f], None).

(** The order in which operations first reach the registry: a call that
    names a new operation puts it last, any other call changes nothing. *)
Definition note_call (order : list Callable) (c : call) : list Callable :=
  match c with
  | AddTool f _ _ _ | SetGroup f _ =>
      if decide (f ∈ order) then order else order ++ [f]
  | Enable _ => order
  end.

Definition first_added (cs : list call) : list Callable := foldl note_call [] cs.

(** What [get_enabled_tools] lists for a group. *)
Definition group_funcs (m : ToolsetManager) (g : string) : list Callable :=
  omap (λ i, func <$> store m !! i) (members_of m g).

(** ** Start-up: [initialize_toolsets] and [load_groups] *)

(** Python strings are sequences of code points; the model keeps the code
    points below 256.  [isspace] is [str.isspace] on those: the characters
    [str.strip()] removes. *)
Definition isspace (c : ascii) : bool :=
  let n := N_of_ascii c in
  ((9 <=? n) && (n <=? 13) || (28 <=? n) && (n <=? 32) || (n =? 133) || (n =? 160))%N.

(** [s.split(sep)] for a separator of one character. *)
Fixpoint split (sep : ascii) (s : string) : list string :=
  match s with
  | EmptyString => [EmptyString]
  | String c s' =>
      if Ascii.eqb c sep then EmptyString :: split sep s'
      else match split sep s' with
           | [] => [String c EmptyString]
           | t :: ts => String c t :: ts
           end
  end.

Fixpoint lstrip (s : string) : string :=
  match s with
  | EmptyString => EmptyString
  | String c s' => if isspace c then lstrip s' else s
  end.

Fixpoint rstrip (s : string) : string :=
  match s with
  | EmptyString => EmptyString
  | String c s' =>
      match rstrip s' with
      | EmptyString => if isspace c then EmptyString else String c EmptyString
      | r => String c r
      end
  end.

(** [s.strip()] *)
Definition strip (s : string) : string := rstrip (lstrip s).

(** Truth value of a string: it is not empty. *)
Definition str_bool (s : string) : bool :=
  match s with
  | EmptyString => false
  | String _ _ => true
  end.

(** [xs or ys] on lists. *)
Definition list_or {A} (xs ys : list A) : list A :=
  match xs with
  | [] => ys
  | _ :: _ => xs
  end.

(** The argument [toolsets: list[str] | str | None]. *)
Inductive toolsets_arg :=
  | ToolsetsNone
  | ToolsetsStr (s : string)
  | ToolsetsList (l : list string).

(** The local variable [enabled] of [initialize_toolsets]. *)
Definition enabled_groups (toolsets : toolsets_arg) : list string :=
  match toolsets with
  | ToolsetsNone => ["default"]
  | ToolsetsStr s =>
      list_or
        (flat_map (λ g, if str_bool (strip g) then [strip g] else []) (split "," s))
        ["default"]
  | ToolsetsList l => list_or l ["default"]
  end.

(** What [load_groups] sees of the module [server], which is not among the
    sources: the two tools it looks up with [hasattr], the tool
    [rds_custom.custom_echo], and whether the module [rds_custom] has been
    imported before, in which case the import does not run its decorator
    again. *)
Record server_module := {
  describe_db_instances : option Callable;
  describe_db_instance_attribute : option Callable;
  custom_echo : Callable;
  rds_custom_imported : bool;
}.

(** [from . import rds_custom]: on first import the module body runs
    [@mcp.tool()] on [custom_echo].
    The module [server] is not among the sources; its [mcp] is taken to be
    the [ToolsetMCP] that owns [server.toolset_manager], the one registry of
    the process. *)
Definition import_rds_custom (srv : server_module) (manager : ToolsetManager)
    : result ToolsetManager :=
  if rds_custom_imported srv then Ok manager
  else ToolsetMCP_tool manager [] None [] (custom_echo srv).

Definition load_groups (manager : ToolsetManager) (srv : server_module)
    : result ToolsetManager :=
  manager ← match describe_db_instances srv with
            | Some f => set_group manager f "rds"
            | None => Ok manager
            end;
  manager ← match describe_db_instance_attribute srv with
            | Some f => set_group manager f "rds"
            | None => Ok manager
            end;
  (* Load tools defined in separate modules *)
  manager ← import_rds_custom srv manager;
  set_group manager (custom_echo srv) "custom".

(** [initialize_toolsets(toolsets)] on the manager and the host of the
    module [server]; it returns the manager, and the host with the exception
    activation ended with, if any. *)
Definition initialize_toolsets {FastMCP : Type}
    (FastMCP_tool : FastMCP → list Any → list (string * Any) → Callable
                    → FastMCP * option exn)
    (srv : server_module) (toolsets : toolsets_arg)
    (manager : ToolsetManager) (mcp : FastMCP)
    : result (ToolsetManager * (FastMCP * option exn)) :=
  (* Assign tools to their groups once at startup *)
  manager ← load_groups manager srv;
  let enabled := enabled_groups toolsets in
  let manager := enable manager enabled in
  Ok (manager, register_enabled_tools FastMCP_tool manager mcp).

(** The reading of the string argument in the words of the specification:
    split on commas, trim every token, drop the empty ones. *)
Definition spec_tokens (s : string) : list string :=
  filter (λ t, t ≠ "") (strip <$> split "," s).

Definition spec_enabled_groups (toolsets : toolsets_arg) : list string :=
  match toolsets with
  | ToolsetsNone => ["default"]
  | ToolsetsStr s => if decide (spec_tokens s = []) then ["default"] else spec_tokens s
  | ToolsetsList l => if decide (l = []) then ["default"] else l
  end.

(** [sep.join(ts)] *)
Fixpoint join (sep : string) (ts : list string) : string :=
  match ts with
  | [] => ""
  | [t] => t
  | t :: ts' => t +:+ sep +:+ join sep ts'
  end.

(** Observations on strings used in the statements. *)
Fixpoint str_in (c : ascii) (s : string) : Prop :=
  match s with
  | EmptyString => False
  | String c' s' => c' = c ∨ str_in c s'
  end.

Fixpoint all_space (s : string) : bool :=
  match s with
  | EmptyString => true
  | String c s' => isspace c && all_space s'
  end.

Definition head_char (s : string) : option ascii :=
  match s with
  | EmptyString => None
  | String c _ => Some c
  end.

Fixpoint last_char (s : string) : option ascii :=
  match s with
  | EmptyString => None
  | String c EmptyString => Some c
  | String _ s' => last_char s'
  end.

(** The server of the examples: both RDS tools are present and [rds_custom]
    has not been imported yet. *)
Definition demo_server : server_module :=
  {| describe_db_instances := Some 1;
     describe_db_instance_attribute := Some 2;
     custom_echo := 3;
     rds_custom_imported := false |}.

(** ** Observations for the further properties *)

(** The group a call assigns its operation to. *)
Definition call_group (c : call) : option string :=
  match c with
  | AddTool _ g _ _ => Some (default "default" g)
  | SetGroup _ g => Some g
  | Enable _ => None
  end.

(** The order in which group names are first mentioned by the calls. *)
Definition note_group (order : list string) (c : call) : list string :=
  match call_group c with
  | Some g => if decide (g ∈ order) then order else order ++ [g]
  | None => order
  end.

Definition first_named (cs : list call) : list string := foldl note_group [] cs.

(** A group name as the string form of the argument hands it over: not
    empty, without a comma, without white space at either end. *)
Definition clean_name (t : string) : Prop :=
  t ≠ "" ∧ ¬ str_in "," t ∧
  (∀ c, head_char t = Some c → isspace c = false) ∧
  (∀ c, last_char t = Some c → isspace c = false).

(** The module [server] once [rds_custom] has been imported. *)
Definition imported (srv : server_module) : server_module :=
  {| describe_db_instances := describe_db_instances srv;
     describe_db_instance_attribute := describe_db_instance_attribute srv;
     custom_echo := custom_echo srv;
     rds_custom_imported := true |}.

(** What one call does to the record of operation [f], seen from that
    operation alone. *)
Definition assign (f : Callable) (acc : option _ToolInfo) (c : call)
    : option _ToolInfo :=
  match c with
  | AddTool f' g a kw =>
      if decide (f' = f)
      then Some (ToolInfo f (default [] a) (default [] kw) (default "default" g))
      else acc
  | SetGroup f' g =>
      if decide (f' = f)
      then Some (match acc with
                 | Some o => set_info_group o g
                 | None => ToolInfo f [] [] g
                 end)
      else acc
  | Enable _ => acc
  end.

(** The calls [load_groups] makes on the registry. *)
Definition load_calls (srv : server_module) : list call :=
  match describe_db_instances srv with
  | Some f => [SetGroup f "rds"]
  | None => []
  end ++
  match describe_db_instance_attribute srv with
  | Some f => [SetGroup f "rds"]
  | None => []
  end ++
  (if rds_custom_imported srv then []
   else [AddTool (custom_echo srv) (Some "default") (Some []) (Some [])]) ++
  [SetGroup (custom_echo srv) "custom"].

(** The operation a call names. *)
Definition call_func (c : call) : option Callable :=
  match c with
  | AddTool f _ _ _ | SetGroup f _ => Some f
  | Enable _ => None
  end.

(** * Proofs *)

(** ** Dictionaries *)
Section pydict_facts.
Context {K V : Type} `{EqDecision K}.
Implicit Types (d : pydict K V) (k : K) (v : V).

Lemma dict_get_set d k v k' :
  dict_get (dict_set d k v) k' = if decide (k = k') then Some v else dict_get d k'.
Proof.
  induction d as [|[k0 v0] d IH]; simpl.
  - done.
  - destruct (decide (k0 = k)) as [->|Hne]; simpl.
    + destruct (decide (k = k')); done.
    + destruct (decide (k0 = k')) as [->|]; [|done].
      by rewrite decide_False.
Qed.

Lemma dict_get_set_eq d k v : dict_get (dict_set d k v) k = Some v.
Proof. by rewrite dict_get_set, decide_True. Qed.

Lemma dict_get_set_ne d k v k' :
  k ≠ k' → dict_get (dict_set d k v) k' = dict_get d k'.
Proof. intros. by rewrite dict_get_set, decide_False. Qed.

Lemma dict_get_None d k : dict_get d k = None ↔ k ∉ dict_keys d.
Proof.
  unfold dict_keys. induction d as [|[k0 v0] d IH]; simpl.
  - split; [intros _; apply not_elem_of_nil | done].
  - rewrite not_elem_of_cons. destruct (decide (k0 = k)) as [->|Hne].
    + split; [done | intros [? _]; done].
    + rewrite IH. split; [intros; split; [congruence | done] | intros [_ ?]; done].
Qed.

Lemma dict_get_Some_elem d k v : dict_get d k = Some v → (k, v) ∈ d.
Proof.
  induction d as [|[k0 v0] d IH]; simpl; [done|].
  destruct (decide (k0 = k)) as [->|Hne].
  - intros [= ->]. left.
  - intros. right. auto.
Qed.

Lemma elem_dict_get d k v : NoDup (dict_keys d) → (k, v) ∈ d → dict_get d k = Some v.
Proof.
  unfold dict_keys. induction d as [|[k0 v0] d IH]; simpl.
  - intros _ H. by apply elem_of_nil in H.
  - rewrite NoDup_cons. intros [Hk0 Hnd] Hin.
    apply elem_of_cons in Hin as [[= -> ->]|Hin].
    + by rewrite decide_True.
    + destruct (decide (k0 = k)) as [->|Hne]; [|auto].
      exfalso. apply Hk0. apply list_elem_of_fmap. by exists (k, v).
Qed.

(** Assigning to a present key keeps the key order; a new key goes last. *)
Lemma dict_keys_set d k v :
  dict_keys (dict_set d k v)
  = match dict_get d k with
    | Some _ => dict_keys d
    | None => dict_keys d ++ [k]
    end.
Proof.
  unfold dict_keys. induction d as [|[k0 v0] d IH]; csimpl; [done|].
  destruct (decide (k0 = k)) as [->|Hne]; csimpl; [done|].
  rewrite IH. by destruct (dict_get d k).
Qed.

Lemma dict_keys_set_NoDup d k v :
  NoDup (dict_keys d) → NoDup (dict_keys (dict_set d k v)).
Proof.
  intros Hnd. rewrite dict_keys_set.
  destruct (dict_get d k) eqn:Hk; [done|].
  apply NoDup_app. split_and!; [done| |apply NoDup_singleton].
  intros x Hx ->%list_elem_of_singleton. by apply dict_get_None in Hk.
Qed.

Lemma dict_set_id d k v : dict_get d k = Some v → dict_set d k v = d.
Proof.
  induction d as [|[k0 v0] d IH]; simpl; [done|].
  destruct (decide (k0 = k)) as [->|Hne].
  - by intros [= ->].
  - intros. f_equal. auto.
Qed.

Lemma dict_set_set d k v v' : dict_set (dict_set d k v) k v' = dict_set d k v'.
Proof.
  induction d as [|[k0 v0] d IH]; simpl.
  - by rewrite decide_True.
  - destruct (decide (k0 = k)) as [->|Hne]; simpl.
    + by rewrite decide_True.
    + rewrite decide_False by done. by f_equal.
Qed.

Lemma dict_contains_true d k : dict_contains d k = true ↔ is_Some (dict_get d k).
Proof. unfold dict_contains. apply bool_decide_eq_true. Qed.
End pydict_facts.

(** ** The object store *)

Lemma deref_Some st l o : st !! l = Some o → deref st l = Ok o.
Proof. unfold deref. by intros ->. Qed.

Lemma without_func_ok st f ms :
  (∀ i, i ∈ ms → is_Some (st !! i)) →
  without_func st f ms = Ok (filter (λ i, func <$> st !! i ≠ Some f) ms).
Proof.
  induction ms as [|i ms IH]; intros Hval; simpl; [done|].
  destruct (Hval i) as [o Ho]; [left|].
  rewrite (deref_Some _ _ _ Ho). simpl.
  rewrite IH by (intros; apply Hval; by right). simpl.
  rewrite filter_cons, Ho. simpl.
  destruct (decide (func o ≠ f)) as [Hne|Heq].
  - rewrite decide_True; [done | congruence].
  - rewrite decide_False; [done | intros H; apply H; f_equal; by destruct (decide (func o = f))].
Qed.

Lemma funcs_of_ok st ms :
  (∀ i, i ∈ ms → is_Some (st !! i)) →
  funcs_of st ms = Ok (omap (λ i, func <$> st !! i) ms).
Proof.
  induction ms as [|i ms IH]; intros Hval; simpl; [done|].
  destruct (Hval i) as [o Ho]; [left|].
  rewrite (deref_Some _ _ _ Ho). simpl.
  rewrite IH by (intros; apply Hval; by right). simpl.
  by rewrite Ho.
Qed.

(** ** The registry invariant is kept *)

Lemma members_of_Some m g ls : dict_get (groups m) g = Some ls → members_of m g = ls.
Proof. unfold members_of. by intros ->. Qed.

Lemma members_of_elem m g l :
  l ∈ members_of m g → ∃ ls, dict_get (groups m) g = Some ls ∧ l ∈ ls.
Proof.
  unfold members_of. destruct (dict_get (groups m) g) as [ls|]; simpl.
  - intros. by exists ls.
  - intros H. by apply elem_of_nil in H.
Qed.

Lemma Inv_init : Inv ToolsetManager_init.
Proof.
  split; simpl.
  - apply NoDup_nil_2.
  - apply NoDup_nil_2.
  - intros f _ l. done.
  - intros g ls. done.
Qed.

Lemma drop_from_group_Inv m f l o :
  Inv m → dict_get (_tools m) f = Some l → store m !! l = Some o →
  drop_from_group m (group o) f = Ok (dropped m (group o) f) ∧
  Inv_gen (Some f) (dropped m (group o) f).
Proof.
  intros [Htk Hgk Ht Hg] Hf Ho.
  destruct (Ht f ltac:(done) l Hf) as (o' & Ho' & Hfo & Hmem).
  assert (o' = o) as -> by congruence.
  apply members_of_elem in Hmem as (ls & Hls & Hl).
  split.
  - unfold drop_from_group, dict_getitem.
    rewrite (proj2 (dict_contains_true _ _)) by (by rewrite Hls).
    rewrite Hls. simpl.
    rewrite without_func_ok.
    + simpl. unfold dropped. by rewrite (members_of_Some _ _ _ Hls).
    + intros i Hi. destruct (Hg _ _ Hls) as [_ Hall].
      destruct (Hall i Hi) as (oi & -> & _). by eexists.
  - unfold dropped. rewrite (members_of_Some _ _ _ Hls).
    split; simpl.
    + done.
    + by apply dict_keys_set_NoDup.
    + intros f' Hf' l' Hl'. simpl in *.
      destruct (Ht f' ltac:(done) l' Hl') as (o1 & Ho1 & Hfo1 & Hmem1).
      exists o1. split_and!; [done..|].
      unfold members_of in *. simpl.
      rewrite dict_get_set. case_decide as Hgo.
      * rewrite <-Hgo, Hls in Hmem1. simpl in *.
        apply list_elem_of_filter. split; [|done].
        rewrite Ho1. simpl. congruence.
      * done.
    + intros g' ls'. rewrite dict_get_set. case_decide as Hgo.
      * intros [= <-]. subst g'.
        destruct (Hg _ _ Hls) as [Hnd Hall]. split.
        -- by apply NoDup_filter.
        -- intros i [HP Hi]%list_elem_of_filter.
           destruct (Hall i Hi) as (oi & Hoi & Hgi & Hti & _).
           exists oi. split_and!; [done..|].
           rewrite Hoi in HP. simpl in HP. congruence.
      * intros Hls'. destruct (Hg _ _ Hls') as [Hnd Hall]. split; [done|].
        intros i Hi. destruct (Hall i Hi) as (oi & Hoi & Hgi & Hti & _).
        exists oi. split_and!; [done..|].
        intros [= Hfi]. rewrite Hfi in Hti.
        assert (i = l) as -> by congruence.
        assert (oi = o) as -> by congruence. done.
Qed.

Lemma dict_get_group_append gs g l g' :
  dict_get (group_append gs g l) g'
  = if decide (g = g') then Some (default [] (dict_get gs g) ++ [l]) else dict_get gs g'.
Proof.
  unfold group_append. destruct (dict_get gs g) eqn:Hg; rewrite dict_get_set;
    case_decide; done.
Qed.

Lemma dict_keys_group_append_NoDup gs g l :
  NoDup (dict_keys gs) → NoDup (dict_keys (group_append gs g l)).
Proof.
  unfold group_append. destruct (dict_get gs g); apply dict_keys_set_NoDup.
Qed.

Lemma attach_Inv m st' f l o :
  Inv_gen (Some f) m →
  st' !! l = Some o → func o = f →
  (∀ o', store m !! l = Some o' → func o' = f) →
  (∀ l' o', store m !! l' = Some o' → func o' ≠ f → st' !! l' = Some o') →
  Inv (attached m st' f (group o) l).
Proof.
  intros [Htk Hgk Ht Hg] Hl Hfo Hfresh Hkeep.
  assert (Hnotin : ∀ g ls, dict_get (groups m) g = Some ls → l ∉ ls).
  { intros g ls Hls Hin. destruct (Hg _ _ Hls) as [_ Hall].
    destruct (Hall l Hin) as (o' & Ho' & _ & _ & Hne).
    apply Hne. f_equal. by apply Hfresh. }
  split; simpl.
  - by apply dict_keys_set_NoDup.
  - by apply dict_keys_group_append_NoDup.
  - intros f' _ l'. simpl. rewrite dict_get_set. case_decide as Hff.
    + intros [= <-]. subst f'. exists o. split_and!; [done..|].
      unfold members_of. simpl. rewrite dict_get_group_append, decide_True by done.
      simpl. apply elem_of_app. right. apply list_elem_of_singleton. done.
    + intros Hl'. assert (Some f' ≠ Some f) as Hsf by (intros [= ->]; done).
      destruct (Ht f' Hsf l' Hl') as (o' & Ho' & Hfo' & Hmem).
      exists o'. split_and!; [apply Hkeep; congruence | done |].
      unfold members_of in *. simpl. rewrite dict_get_group_append.
      case_decide as Hgg; [|done]. rewrite Hgg. simpl.
      apply elem_of_app. by left.
  - intros g' ls'. rewrite dict_get_group_append. case_decide as Hgg.
    + intros [= <-]. subst g'.
      assert (Hold : group_ok m (Some f) (group o) (default [] (dict_get (groups m) (group o)))).
      { destruct (dict_get (groups m) (group o)) as [ls|] eqn:Hls; simpl.
        - by apply Hg.
        - split; [apply NoDup_nil_2 | intros ? H; by apply elem_of_nil in H]. }
      destruct Hold as [Hnd Hall]. split.
      * apply NoDup_app. split_and!; [done| |apply NoDup_singleton].
        intros x Hx ->%list_elem_of_singleton.
        destruct (dict_get (groups m) (group o)) as [ls|] eqn:Hls; simpl in *.
        -- by eapply Hnotin.
        -- by apply elem_of_nil in Hx.
      * intros i [Hi| ->%list_elem_of_singleton]%elem_of_app.
        -- destruct (Hall i Hi) as (oi & Hoi & Hgi & Hti & Hne).
           exists oi. split_and!; [apply Hkeep; congruence | done | | done].
           simpl. rewrite dict_get_set_ne; [done | congruence].
        -- exists o. split_and!; [done..| |done].
           simpl. rewrite Hfo. apply dict_get_set_eq.
    + intros Hls'. destruct (Hg _ _ Hls') as [Hnd Hall]. split; [done|].
      intros i Hi. destruct (Hall i Hi) as (oi & Hoi & Hgi & Hti & Hne).
      exists oi. split_and!; [apply Hkeep; congruence | done | | done].
      simpl. rewrite dict_get_set_ne; [done | congruence].
Qed.

Lemma add_tool_Inv m f g a kw :
  Inv m →
  add_tool m f g a kw
    = Ok (add_tool_result m f (default "default" g) (default [] a) (default [] kw))
  ∧ Inv (add_tool_result m f (default "default" g) (default [] a) (default [] kw)).
Proof.
  intros HI. unfold add_tool, add_tool_result, record_of.
  set (o1 := ToolInfo f (default [] a) (default [] kw) (default "default" g)).
  assert (Hmid : ∃ mid,
    match dict_get (_tools m) f with
    | Some info => o ← deref (store m) info; drop_from_group m (group o) f
    | None => Ok m
    end = Ok mid
    ∧ match dict_get (_tools m) f ≫= λ info, store m !! info with
      | Some o => dropped m (group o) f
      | None => m
      end = mid
    ∧ store mid = store m ∧ enabled mid = enabled m
    ∧ Inv_gen (Some f) mid).
  { destruct (dict_get (_tools m) f) as [l|] eqn:Hf; simpl.
    - destruct (inv_tools _ _ HI f ltac:(done) l Hf) as (o & Ho & _).
      rewrite (deref_Some _ _ _ Ho), Ho. simpl.
      destruct (drop_from_group_Inv m f l o HI Hf Ho) as [-> Hd].
      eexists. split_and!; done.
    - exists m. split_and!; [done..|].
      destruct HI as [Htk Hgk Ht Hg]. split; [done..| |].
      + intros f' Hf'. apply Ht. done.
      + intros g' ls Hls. destruct (Hg _ _ Hls) as [Hnd Hall]. split; [done|].
        intros i Hi. destruct (Hall i Hi) as (oi & Hoi & Hgi & Hti & _).
        exists oi. split_and!; [done..|]. intros [= Hfi]. congruence. }
  destruct Hmid as (mid & -> & -> & Hst & Hen & Hmid). simpl.
  unfold new_ToolInfo. rewrite Hst. split; [done|].
  change (default "default" g) with (group o1).
  apply attach_Inv with (o := o1); rewrite ?Hst.
  - done.
  - by apply list_lookup_middle.
  - done.
  - intros o' Ho'. apply lookup_lt_Some in Ho'. lia.
  - intros l' o' Ho' _. by apply lookup_app_l_Some.
Qed.

Lemma set_group_move_Inv m f g l o :
  Inv m → dict_get (_tools m) f = Some l → store m !! l = Some o → group o ≠ g →
  set_group m f g = Ok (set_group_moved m f g l o) ∧ Inv (set_group_moved m f g l o).
Proof.
  intros HI Hf Ho Hne.
  destruct (drop_from_group_Inv m f l o HI Hf Ho) as [Hd Hmid].
  destruct (inv_tools _ _ HI f ltac:(done) l Hf) as (o' & Ho' & Hfo & _).
  assert (o' = o) as -> by congruence.
  split.
  - unfold set_group. rewrite Hf, (deref_Some _ _ _ Ho). simpl.
    rewrite decide_False by done. rewrite Hd. simpl.
    rewrite (deref_Some _ _ _ Ho). simpl.
    unfold set_group_moved, attached. simpl.
    by rewrite (dict_set_id _ _ _ Hf).
  - unfold set_group_moved.
    change g with (group (set_info_group o g)) at 2.
    apply attach_Inv with (o := set_info_group o g); simpl.
    + done.
    + apply list_lookup_insert_eq. by eapply lookup_lt_Some.
    + done.
    + intros o2 Ho2. congruence.
    + intros l2 o2 Ho2 Hfo2. rewrite list_lookup_insert_ne; [done|].
      intros ->. congruence.
Qed.

Lemma enable_Inv m gs : Inv m → Inv (enable m gs).
Proof. intros [Htk Hgk Ht Hg]. split; done. Qed.

Lemma step_Inv m c : Inv m → ∃ m', step m c = Ok m' ∧ Inv m'.
Proof.
  intros HI. destruct c as [f g a kw|f g|gs]; simpl.
  - destruct (add_tool_Inv m f g a kw HI) as [-> ?]. eauto.
  - unfold set_group.
    destruct (dict_get (_tools m) f) as [l|] eqn:Hf.
    + destruct (inv_tools _ _ HI f ltac:(done) l Hf) as (o & Ho & _).
      rewrite (deref_Some _ _ _ Ho). simpl.
      destruct (decide (group o = g)) as [Hg|Hg]; [eauto|].
      destruct (set_group_move_Inv m f g l o HI Hf Ho Hg) as [Heq ?].
      unfold set_group in Heq. rewrite Hf, (deref_Some _ _ _ Ho) in Heq.
      simpl in Heq. rewrite decide_False in Heq by done. rewrite Heq. eauto.
    + destruct (add_tool_Inv m f (Some g) None None HI) as [-> ?]. eauto.
  - eauto using enable_Inv.
Qed.

Lemma run_Inv cs : ∀ m, Inv m → ∃ m', run m cs = Ok m' ∧ Inv m'.
Proof.
  induction cs as [|c cs IH]; intros m HI; simpl.
  - eauto.
  - destruct (step_Inv m c HI) as (m1 & -> & HI1). simpl. by apply IH.
Qed.

Lemma reachable_Inv m : reachable m → Inv m.
Proof.
  intros [cs Hcs]. destruct (run_Inv cs _ Inv_init) as (m' & Hm' & HI).
  congruence.
Qed.

(** ** Group membership *)

Lemma occurrences_entries m g f : occurrences m g f = List.length (entries m g f).
Proof. done. Qed.

Lemma NoDup_all_eq {A} (xs : list A) (a : A) :
  NoDup xs → (∀ x, x ∈ xs → x = a) → a ∈ xs → xs = [a].
Proof.
  intros Hnd Hall Ha. destruct xs as [|x xs]; [by apply elem_of_nil in Ha|].
  assert (x = a) as -> by (apply Hall; left).
  apply NoDup_cons in Hnd as [Hx _].
  destruct xs as [|y xs]; [done|].
  assert (y = a) as -> by (apply Hall; right; left).
  exfalso. apply Hx. left.
Qed.

Lemma entries_elem m g f i :
  Inv m → i ∈ entries m g f →
  ∃ o, store m !! i = Some o ∧ func o = f ∧ group o = g ∧ dict_get (_tools m) f = Some i.
Proof.
  intros HI [Hfi Hi]%list_elem_of_filter.
  apply members_of_elem in Hi as (ls & Hls & Hi).
  destruct (inv_groups _ _ HI _ _ Hls) as [_ Hall].
  destruct (Hall i Hi) as (o & Ho & Hg & Ht & _).
  rewrite Ho in Hfi. simpl in Hfi. injection Hfi as Hfi.
  exists o. split_and!; try done. by rewrite <-Hfi.
Qed.

Lemma entries_Inv m f :
  Inv m →
  match dict_get (_tools m) f with
  | Some l =>
      ∃ o, store m !! l = Some o ∧ func o = f ∧
        ∀ g, entries m g f = if decide (g = group o) then [l] else []
  | None => ∀ g, entries m g f = []
  end.
Proof.
  intros HI. destruct (dict_get (_tools m) f) as [l|] eqn:Hf.
  - destruct (inv_tools _ _ HI f ltac:(done) l Hf) as (o & Ho & Hfo & Hmem).
    exists o. split_and!; [done..|]. intros g. case_decide as Hg.
    + subst g. apply NoDup_all_eq.
      * apply NoDup_filter. apply members_of_elem in Hmem as (ls & Hls & _).
        rewrite (members_of_Some _ _ _ Hls).
        by destruct (inv_groups _ _ HI _ _ Hls).
      * intros i Hi. destruct (entries_elem _ _ _ _ HI Hi) as (? & _ & _ & _ & ?).
        congruence.
      * apply list_elem_of_filter. split; [|done]. rewrite Ho. simpl. by f_equal.
    + destruct (entries m g f) as [|i rest] eqn:He; [done|]. exfalso.
      destruct (entries_elem m g f i HI) as (oi & Hoi & _ & Hgi & Hti).
      { rewrite He. left. }
      assert (i = l) as -> by congruence. congruence.
  - intros g. destruct (entries m g f) as [|i rest] eqn:He; [done|]. exfalso.
    destruct (entries_elem m g f i HI) as (oi & _ & _ & _ & Hti).
    { rewrite He. left. }
    congruence.
Qed.

(** ** [set_group] *)

Lemma set_group_same m f g l o :
  dict_get (_tools m) f = Some l → store m !! l = Some o → group o = g →
  set_group m f g = Ok m.
Proof.
  intros Hf Ho Hg. unfold set_group.
  rewrite Hf, (deref_Some _ _ _ Ho). simpl. by rewrite decide_True.
Qed.

Lemma reachable_record_None m f :
  Inv m → record_of m f = None → dict_get (_tools m) f = None.
Proof.
  intros HI. unfold record_of.
  destruct (dict_get (_tools m) f) as [l|] eqn:Hf; [|done]. simpl.
  destruct (inv_tools _ _ HI f ltac:(done) l Hf) as (o & -> & _). done.
Qed.

(** C7. For an operation without a record, [set_group] succeeds and returns
    the manager [add_tool] returns for that group and no registration
    parameters: the operation gets a record with the group, [()] and [{}]. *)
Theorem C7_set_group_unregistered_is_add (m : ToolsetManager) (f : Callable) (g : string) :
  reachable m → record_of m f = None →
  ∃ m', set_group m f g = Ok m' ∧
        add_tool m f (Some g) None None = Ok m' ∧
        record_of m' f = Some (ToolInfo f [] [] g).
Proof.
  intros HI%reachable_Inv Hrec.
  pose proof (reachable_record_None m f HI Hrec) as Hf.
  destruct (add_tool_Inv m f (Some g) None None HI) as [Hadd _].
  eexists. split_and!.
  - unfold set_group. rewrite Hf. exact Hadd.
  - exact Hadd.
  - unfold add_tool_result, record_of. simpl.
    rewrite dict_get_set_eq. simpl. by apply list_lookup_middle.
Qed.

Lemma C7_witness :
  ∃ m', set_group ToolsetManager_init 7 "rds" = Ok m' ∧
        add_tool ToolsetManager_init 7 (Some "rds") None None = Ok m' ∧
        record_of m' 7 = Some (ToolInfo 7 [] [] "rds").
Proof.
  apply (C7_set_group_unregistered_is_add ToolsetManager_init 7 "rds").
  - by exists [].
  - reflexivity.
Defined.

(** C8. Calling [set_group] a second time with the same operation and group
    returns the manager the first call returned, group lists included; when
    the record already names the group the first call returns the manager it
    was given. *)
Theorem C8_set_group_idempotent (m : ToolsetManager) (f : Callable) (g : string) :
  reachable m →
  ∃ m1, set_group m f g = Ok m1 ∧ set_group m1 f g = Ok m1 ∧
        (∀ o, record_of m f = Some o → group o = g → m1 = m).
Proof.
  intros HI%reachable_Inv.
  destruct (dict_get (_tools m) f) as [l|] eqn:Hf.
  - destruct (inv_tools _ _ HI f ltac:(done) l Hf) as (o & Ho & Hfo & _).
    destruct (decide (group o = g)) as [Hg|Hg].
    + exists m. rewrite (set_group_same m f g l o) by done. done.
    + destruct (set_group_move_Inv m f g l o HI Hf Ho Hg) as [Heq _].
      exists (set_group_moved m f g l o). split_and!; [done| |].
      * apply set_group_same with (l := l) (o := set_info_group o g); simpl.
        -- apply dict_get_set_eq.
        -- apply list_lookup_insert_eq. by eapply lookup_lt_Some.
        -- done.
      * intros o'. unfold record_of. rewrite Hf. simpl. congruence.
  - destruct (add_tool_Inv m f (Some g) None None HI) as [Hadd _].
    eexists. split_and!.
    + unfold set_group. rewrite Hf. exact Hadd.
    + apply set_group_same with (l := List.length (store m)) (o := ToolInfo f [] [] g); simpl.
      * apply dict_get_set_eq.
      * by apply list_lookup_middle.
      * done.
    + intros o. unfold record_of. by rewrite Hf.
Qed.

(** ** Activation *)

Section replay_facts.
Context {FastMCP : Type}.
Variable tool :
  FastMCP → list Any → list (string * Any) → Callable → FastMCP * option exn.

Lemma register_loop_replay m infos h :
  (∀ l, l ∈ infos → is_Some (store m !! l)) →
  register_loop tool m infos h = replay tool (omap (selected_at m) infos) h.
Proof.
  revert h. induction infos as [|l infos IH]; intros h Hval; simpl; [done|].
  destruct (Hval l) as [o Ho]; [left|].
  assert (Hrest : ∀ l', l' ∈ infos → is_Some (store m !! l')).
  { intros. apply Hval. by right. }
  rewrite (deref_Some _ _ _ Ho). unfold selected_at at 1. rewrite Ho. simpl.
  destruct (decide (group o ∈ enabled m)) as [Hen|Hen]; simpl.
  - destruct (tool h (args o) (kwargs o) (func o)) as [h' [e|]]; [done|].
    by apply IH.
  - by apply IH.
Qed.

Lemma replay_app pre post h :
  replay tool (pre ++ post) h
  = match replay tool pre h with
    | (h1, None) => replay tool post h1
    | (h1, Some e) => (h1, Some e)
    end.
Proof.
  revert h. induction pre as [|[[f a] kw] pre IH]; intros h; simpl; [done|].
  destruct (tool h a kw f) as [h' [e|]]; [done|]. apply IH.
Qed.

Lemma replay_traced pre h h1 tr :
  replay tool pre h = (h1, None) →
  replay (traced_tool tool) pre (h, tr) = ((h1, tr ++ map (λ c, (c, None)) pre), None).
Proof.
  revert h tr. induction pre as [|[[f a] kw] pre IH]; intros h tr; simpl.
  - intros [= ->]. by rewrite app_nil_r.
  - unfold traced_tool at 1. simpl.
    destruct (tool h a kw f) as [h' [e|]]; [done|].
    intros Hrest. rewrite (IH _ _ Hrest). by rewrite <-app_assoc.
Qed.
End replay_facts.

Lemma replay_recording calls log :
  replay recording_tool calls log = (log ++ calls, None).
Proof.
  revert log. induction calls as [|[[f a] kw] calls IH]; intros log; simpl.
  - by rewrite app_nil_r.
  - rewrite IH. by rewrite <-app_assoc.
Qed.

Lemma Inv_values_valid m l :
  Inv m → l ∈ dict_values (_tools m) → is_Some (store m !! l).
Proof.
  intros HI Hl. apply list_elem_of_fmap in Hl as ([f l'] & -> & Hin). simpl.
  apply (elem_dict_get _ _ _ (inv_tools_keys _ _ HI)) in Hin.
  destruct (inv_tools _ _ HI f ltac:(done) l' Hin) as (o & Ho & _). by eexists.
Qed.

Lemma register_enabled_replay {FastMCP : Type}
    (tool : FastMCP → list Any → list (string * Any) → Callable → FastMCP * option exn)
    m h :
  Inv m → register_enabled tool m h = replay tool (selected m) h.
Proof.
  intros HI. apply register_loop_replay. intros l. by apply Inv_values_valid.
Qed.

Lemma selected_elem m f a kw :
  Inv m →
  (f, a, kw) ∈ selected m ↔
  ∃ o, record_of m f = Some o ∧ group o ∈ enabled m ∧ a = args o ∧ kw = kwargs o.
Proof.
  intros HI. unfold selected. rewrite list_elem_of_omap. split.
  - intros (l & Hl & Hsel).
    apply list_elem_of_fmap in Hl as ([f' l'] & -> & Hin). simpl in *.
    apply (elem_dict_get _ _ _ (inv_tools_keys _ _ HI)) in Hin.
    destruct (inv_tools _ _ HI f' ltac:(done) l' Hin) as (o & Ho & Hfo & _).
    unfold selected_at in Hsel. rewrite Ho in Hsel. simpl in Hsel.
    case_decide as Hen; [|done]. injection Hsel as <- <- <-.
    exists o. split_and!; [|done..]. unfold record_of. rewrite Hfo, Hin. done.
  - intros (o & Hrec & Hen & -> & ->). unfold record_of in Hrec.
    destruct (dict_get (_tools m) f) as [l|] eqn:Hf; [|done]. simpl in Hrec.
    destruct (inv_tools _ _ HI f ltac:(done) l Hf) as (o' & Ho' & Hfo & _).
    assert (o' = o) as -> by congruence.
    exists l. split.
    + apply list_elem_of_fmap. exists (f, l). split; [done|].
      by apply dict_get_Some_elem.
    + unfold selected_at. rewrite Hrec. simpl. rewrite decide_True by done.
      by rewrite Hfo.
Qed.

Lemma selected_funcs_sub m (d : pydict nat nat) :
  Inv m →
  (∀ f l, (f, l) ∈ d → dict_get (_tools m) f = Some l) →
  (omap (selected_at m) (dict_values d)).*1.*1
  = filter (λ f, tool_enabled m f) (dict_keys d).
Proof.
  intros HI. unfold dict_values, dict_keys.
  induction d as [|[f l] d IH]; intros Hsub; csimpl; [done|].
  assert (Hf : dict_get (_tools m) f = Some l) by (apply Hsub; left).
  destruct (inv_tools _ _ HI f ltac:(done) l Hf) as (o & Ho & Hfo & _).
  assert (Hte : tool_enabled m f = bool_decide (group o ∈ enabled m)).
  { unfold tool_enabled, record_of. rewrite Hf. simpl. by rewrite Ho. }
  rewrite filter_cons, <-IH by (intros; apply Hsub; by right).
  unfold selected_at at 1. rewrite Ho. simpl.
  destruct (decide (group o ∈ enabled m)) as [Hen|Hen].
  - rewrite decide_True by (rewrite Hte; by apply bool_decide_pack).
    simpl. by rewrite Hfo.
  - rewrite decide_False; [done|].
    rewrite Hte. intros ?%bool_decide_unpack. done.
Qed.

(** The operations registered, in order, are the enabled ones among the keys
    of the tool map, in key order. *)
Lemma selected_funcs m :
  Inv m →
  (selected m).*1.*1 = filter (λ f, tool_enabled m f) (dict_keys (_tools m)).
Proof.
  intros HI. apply selected_funcs_sub; [done|].
  intros f l. apply elem_dict_get, HI.
Qed.

(** C1. Activation of a reachable registry on the recording host returns
    without an exception; an operation is registered exactly when the record
    the registry holds for it now names an enabled group, with that record's
    positional and keyword parameters; no operation is registered twice; and
    any host receives these very registrations, in this order. *)
Theorem C1_activation_registers_enabled (m : ToolsetManager) :
  reachable m →
  ∃ calls,
    register_enabled recording_tool m [] = (calls, None) ∧
    NoDup (calls.*1.*1) ∧
    (∀ f a kw, (f, a, kw) ∈ calls ↔
       ∃ o, record_of m f = Some o ∧ group o ∈ enabled m
            ∧ a = args o ∧ kw = kwargs o) ∧
    (∀ (FastMCP : Type) tool (h : FastMCP),
       register_enabled tool m h = replay tool calls h).
Proof.
  intros HI%reachable_Inv. exists (selected m). split_and!.
  - by rewrite register_enabled_replay, replay_recording.
  - rewrite selected_funcs by done. apply NoDup_filter, HI.
  - intros f a kw. by apply selected_elem.
  - intros FastMCP tool h. by apply register_enabled_replay.
Qed.

(** C5. When the host raises [e] at a registration [c], the registrations
    before [c] in the activation order have been made and have returned,
    [c] is the last call the host receives, and activation ends with [e]
    and the host as the failing call left it. *)
Theorem C5_host_failure_aborts {FastMCP : Type}
    (tool : FastMCP → list Any → list (string * Any) → Callable → FastMCP * option exn)
    (m : ToolsetManager) (h h1 h2 : FastMCP)
    (pre post : list registration) (c : registration) (e : exn) :
  reachable m →
  (register_enabled recording_tool m []).1 = pre ++ c :: post →
  replay tool pre h = (h1, None) →
  tool h1 c.1.2 c.2 c.1.1 = (h2, Some e) →
  register_enabled tool m h = (h2, Some e) ∧
  register_enabled (traced_tool tool) m (h, [])
    = ((h2, map (λ r, (r, None)) pre ++ [(c, Some e)]), Some e).
Proof.
  intros HI%reachable_Inv Hsel Hpre Hc.
  rewrite register_enabled_replay, replay_recording in Hsel by done.
  simpl in Hsel. destruct c as [[f a] kw]. simpl in Hc.
  rewrite !register_enabled_replay, Hsel, !replay_app by done. split.
  - rewrite Hpre. simpl. by rewrite Hc.
  - rewrite (replay_traced _ _ _ _ _ Hpre). simpl.
    unfold traced_tool. simpl. by rewrite Hc.
Qed.

(** ** The example registry *)

Lemma demo_reachable : reachable demo_manager.
Proof. exists demo_calls. reflexivity. Qed.

Lemma C1_witness :
  ∃ calls,
    register_enabled recording_tool demo_manager [] = (calls, None) ∧
    NoDup (calls.*1.*1) ∧
    (∀ f a kw, (f, a, kw) ∈ calls ↔
       ∃ o, record_of demo_manager f = Some o ∧ group o ∈ enabled demo_manager
            ∧ a = args o ∧ kw = kwargs o) ∧
    (∀ (FastMCP : Type) tool (h : FastMCP),
       register_enabled tool demo_manager h = replay tool calls h).
Proof.
  apply (C1_activation_registers_enabled demo_manager).
  exists demo_calls. reflexivity.
Defined.

Lemma C5_witness :
  register_enabled flaky_tool demo_manager [] = ([1], Some (HostError "refused")) ∧
  register_enabled (traced_tool flaky_tool) demo_manager ([], [])
    = (([1], [((1, [PyStr "describe"], []), None);
              ((2, [], []), Some (HostError "refused"))]),
       Some (HostError "refused")).
Proof.
  apply (C5_host_failure_aborts flaky_tool demo_manager [] [1] [1]
           [(1, [PyStr "describe"], [])] [(3, [], [("name", PyStr "attr")])]
           (2, [], []) (HostError "refused")).
  - exists demo_calls. reflexivity.
  - reflexivity.
  - reflexivity.
  - reflexivity.
Defined.

Lemma C8_witness :
  ∃ m1, set_group demo_manager 1 "custom" = Ok m1 ∧
        set_group m1 1 "custom" = Ok m1 ∧
        (∀ o, record_of demo_manager 1 = Some o → group o = "custom" → m1 = demo_manager).
Proof.
  apply (C8_set_group_idempotent demo_manager 1 "custom").
  exists demo_calls. reflexivity.
Defined.

(** ** The order of activation *)

Lemma dict_keys_set_note {V} (d : pydict nat V) f v :
  dict_keys (dict_set d f v)
  = if decide (f ∈ dict_keys d) then dict_keys d else dict_keys d ++ [f].
Proof.
  rewrite dict_keys_set. destruct (dict_get d f) eqn:Hf.
  - rewrite decide_True; [done|].
    destruct (decide (f ∈ dict_keys d)) as [|Hn]; [done|].
    apply dict_get_None in Hn. congruence.
  - rewrite decide_False; [done|]. by apply dict_get_None.
Qed.

Lemma add_tool_result_tools m f g a kw :
  _tools (add_tool_result m f g a kw) = dict_set (_tools m) f (List.length (store m)).
Proof. unfold add_tool_result. by destruct (record_of m f). Qed.

Lemma add_tool_result_store m f g a kw :
  store (add_tool_result m f g a kw) = store m ++ [ToolInfo f a kw g].
Proof. done. Qed.

Lemma attached_members mid st f g l :
  members_of (attached mid st f g l) g = members_of mid g ++ [l].
Proof.
  unfold members_of. simpl. by rewrite dict_get_group_append, decide_True.
Qed.

Lemma add_tool_result_last m f g a kw :
  last (members_of (add_tool_result m f g a kw) g) = Some (List.length (store m)).
Proof. unfold add_tool_result. rewrite attached_members. apply last_snoc. Qed.

Lemma step_keys m c m' :
  Inv m → step m c = Ok m' →
  dict_keys (_tools m') = note_call (dict_keys (_tools m)) c.
Proof.
  intros HI. destruct c as [f g a kw|f g|gs]; simpl.
  - destruct (add_tool_Inv m f g a kw HI) as [-> _]. intros [= <-].
    rewrite add_tool_result_tools. apply dict_keys_set_note.
  - destruct (dict_get (_tools m) f) as [l|] eqn:Hf.
    + assert (Hin : f ∈ dict_keys (_tools m)).
      { destruct (decide (f ∈ dict_keys (_tools m))) as [|Hn]; [done|].
        apply dict_get_None in Hn. congruence. }
      rewrite decide_True by done.
      destruct (inv_tools _ _ HI f ltac:(done) l Hf) as (o & Ho & _).
      destruct (decide (group o = g)) as [Hg|Hg].
      * rewrite (set_group_same m f g l o) by done. by intros [= <-].
      * destruct (set_group_move_Inv m f g l o HI Hf Ho Hg) as [-> _].
        intros [= <-]. simpl. by rewrite (dict_set_id _ _ _ Hf).
    + unfold set_group. rewrite Hf.
      destruct (add_tool_Inv m f (Some g) None None HI) as [-> _]. intros [= <-].
      rewrite add_tool_result_tools. apply dict_keys_set_note.
  - by intros [= <-].
Qed.

Lemma run_keys cs : ∀ m m',
  Inv m → run m cs = Ok m' →
  dict_keys (_tools m') = foldl note_call (dict_keys (_tools m)) cs.
Proof.
  induction cs as [|c cs IH]; intros m m' HI; simpl.
  - by intros [= <-].
  - destruct (step_Inv m c HI) as (m1 & Hstep & HI1). rewrite Hstep. simpl.
    intros Hrun. rewrite (IH _ _ HI1 Hrun). f_equal. by apply step_keys.
Qed.

(** C10. After any sequence of calls the tool map lists the operations in the
    order in which they first reached the registry, and activation registers
    the enabled ones in that order.  A [set_group] or [add_tool] for an
    operation that has a record leaves the order as it is, while the record
    goes to the end of the list of the group it moves to. *)
Theorem C10_activation_in_first_add_order (cs : list call) :
  ∃ m, run ToolsetManager_init cs = Ok m ∧
    dict_keys (_tools m) = first_added cs ∧
    ((register_enabled recording_tool m []).1).*1.*1
      = filter (λ f, tool_enabled m f) (first_added cs) ∧
    ∀ f g o, record_of m f = Some o →
      (∃ m' l, set_group m f g = Ok m' ∧
         dict_keys (_tools m') = dict_keys (_tools m) ∧
         dict_get (_tools m') f = Some l ∧
         (group o ≠ g → last (members_of m' g) = Some l)) ∧
      (∀ a kw, ∃ m' l, add_tool m f (Some g) a kw = Ok m' ∧
         dict_keys (_tools m') = dict_keys (_tools m) ∧
         dict_get (_tools m') f = Some l ∧
         last (members_of m' g) = Some l).
Proof.
  destruct (run_Inv cs _ Inv_init) as (m & Hm & HI).
  exists m. split_and!; [done| | |].
  - by rewrite (run_keys cs _ _ Inv_init Hm).
  - rewrite register_enabled_replay, replay_recording by done. simpl.
    rewrite selected_funcs by done. by rewrite (run_keys cs _ _ Inv_init Hm).
  - intros f g o Hrec. unfold record_of in Hrec.
    destruct (dict_get (_tools m) f) as [l|] eqn:Hf; [|done]. simpl in Hrec.
    assert (Hin : f ∈ dict_keys (_tools m)).
    { destruct (decide (f ∈ dict_keys (_tools m))) as [|Hn]; [done|].
      apply dict_get_None in Hn. congruence. }
    split.
    + destruct (decide (group o = g)) as [Hg|Hg].
      * exists m, l. rewrite (set_group_same m f g l o) by done. done.
      * destruct (set_group_move_Inv m f g l o HI Hf Hrec Hg) as [-> _].
        exists (set_group_moved m f g l o), l. split_and!; [done| | |].
        -- simpl. by rewrite (dict_set_id _ _ _ Hf).
        -- simpl. apply dict_get_set_eq.
        -- intros _. unfold set_group_moved. rewrite attached_members.
           apply last_snoc.
    + intros a kw. destruct (add_tool_Inv m f (Some g) a kw HI) as [-> _].
      eexists _, _. split_and!; [done| | |].
      * rewrite add_tool_result_tools, dict_keys_set_note. by rewrite decide_True.
      * rewrite add_tool_result_tools. apply dict_get_set_eq.
      * apply add_tool_result_last.
Qed.

(** ** Re-adding an operation *)

Lemma record_of_lookup m f o :
  Inv m → record_of m f = Some o →
  ∃ l, dict_get (_tools m) f = Some l ∧ store m !! l = Some o ∧ func o = f.
Proof.
  intros HI Hrec. unfold record_of in Hrec.
  destruct (dict_get (_tools m) f) as [l|] eqn:Hf; [|done]. simpl in Hrec.
  destruct (inv_tools _ _ HI f ltac:(done) l Hf) as (o' & Ho' & Hfo & _).
  exists l. split_and!; [done..|]. congruence.
Qed.

Lemma add_tool_result_record m f g a kw :
  record_of (add_tool_result m f g a kw) f = Some (ToolInfo f a kw g).
Proof.
  unfold record_of. rewrite add_tool_result_tools, dict_get_set_eq. simpl.
  by apply list_lookup_middle.
Qed.

Lemma add_tool_result_record_ne m f g a kw f' o :
  Inv m → f' ≠ f → record_of m f' = Some o →
  record_of (add_tool_result m f g a kw) f' = Some o.
Proof.
  intros HI Hne Hrec.
  destruct (record_of_lookup m f' o HI Hrec) as (l & Hl & Ho & _).
  unfold record_of. rewrite add_tool_result_tools, dict_get_set_ne, Hl by done.
  simpl. by apply lookup_app_l_Some.
Qed.

(** The claim of C3 fails: after a second [add_tool] for operation [1] the
    registry holds the record at reference [1], and the reference [0] handed
    out by the first call designates an object the registry no longer uses. *)
Lemma C3_counterexample :
  ∃ m m',
    add_tool ToolsetManager_init 1 (Some "rds") None None = Ok m ∧
    dict_get (_tools m) 1 = Some 0 ∧
    add_tool m 1 (Some "custom") None None = Ok m' ∧
    dict_get (_tools m') 1 = Some 1 ∧
    dict_get (_tools m') 1 ≠ dict_get (_tools m) 1 ∧
    group <$> store m' !! 0 = Some "rds" ∧
    group <$> record_of m' 1 = Some "custom".
Proof. eexists _, _. split_and!; [reflexivity..|done|reflexivity|reflexivity]. Qed.

(** C3, amended. A second [add_tool] for an operation creates no duplicate:
    the tool map keeps its keys and the operation is listed once, in the
    group of the call.  The record is a new object, at a reference that was
    not in use; the object the registry held before is left as it was and
    is referenced neither by the tool map nor by any group's list. *)
Theorem C3_readd_replaces_record (m : ToolsetManager) (f : Callable)
    (g : option string) (a : option (list Any)) (kw : option (list (string * Any)))
    (l : loc) :
  reachable m → dict_get (_tools m) f = Some l →
  ∃ m', add_tool m f g a kw = Ok m' ∧
    dict_keys (_tools m') = dict_keys (_tools m) ∧
    (∀ g', occurrences m' g' f = if decide (g' = default "default" g) then 1 else 0) ∧
    dict_get (_tools m') f = Some (List.length (store m)) ∧
    store m !! (List.length (store m)) = None ∧
    List.length (store m) ≠ l ∧
    store m' !! l = store m !! l ∧
    (l ∉ dict_values (_tools m')) ∧
    (∀ g', l ∉ members_of m' g').
Proof.
  intros HI%reachable_Inv Hf.
  destruct (add_tool_Inv m f g a kw HI) as [Hadd HI'].
  set (m' := add_tool_result m f (default "default" g) (default [] a) (default [] kw)) in *.
  destruct (inv_tools _ _ HI f ltac:(done) l Hf) as (o & Ho & Hfo & _).
  assert (Hlt : l < List.length (store m)) by by eapply lookup_lt_Some.
  assert (Hnew : dict_get (_tools m') f = Some (List.length (store m))).
  { unfold m'. rewrite add_tool_result_tools. apply dict_get_set_eq. }
  assert (Hold : store m' !! l = Some o).
  { unfold m'. rewrite add_tool_result_store. by apply lookup_app_l_Some. }
  exists m'. split_and!.
  - done.
  - unfold m'. rewrite add_tool_result_tools, dict_keys_set_note.
    rewrite decide_True; [done|].
    destruct (decide (f ∈ dict_keys (_tools m))) as [|Hn]; [done|].
    apply dict_get_None in Hn. congruence.
  - intros g'. rewrite occurrences_entries.
    pose proof (entries_Inv m' f HI') as He. rewrite Hnew in He.
    destruct He as (o' & Ho' & _ & He). rewrite He.
    unfold m' in Ho'. rewrite add_tool_result_store, list_lookup_middle in Ho' by done.
    injection Ho' as <-. simpl. by case_decide.
  - done.
  - apply lookup_ge_None. lia.
  - lia.
  - by rewrite Hold.
  - intros Hin. apply list_elem_of_fmap in Hin as ([f' l'] & Heq & Hin).
    simpl in Heq. subst l'.
    apply (elem_dict_get _ _ _ (inv_tools_keys _ _ HI')) in Hin.
    destruct (inv_tools _ _ HI' f' ltac:(done) l Hin) as (o' & Ho' & Hfo' & _).
    assert (o' = o) as -> by congruence.
    assert (f' = f) as -> by congruence.
    rewrite Hnew in Hin. injection Hin as Hin. lia.
  - intros g' Hin. apply members_of_elem in Hin as (ls & Hls & Hin).
    destruct (inv_groups _ _ HI' _ _ Hls) as [_ Hall].
    destruct (Hall l Hin) as (o' & Ho' & _ & Ht & _).
    assert (o' = o) as -> by congruence.
    rewrite Hfo, Hnew in Ht. injection Ht as Ht. lia.
Qed.

Lemma C3_witness :
  ∃ m', add_tool demo_manager 2 (Some "rds") None None = Ok m' ∧
    dict_keys (_tools m') = dict_keys (_tools demo_manager) ∧
    (∀ g', occurrences m' g' 2 = if decide (g' = "rds") then 1 else 0) ∧
    dict_get (_tools m') 2 = Some 3 ∧
    store demo_manager !! 3 = None ∧
    3 ≠ 1 ∧
    store m' !! 1 = store demo_manager !! 1 ∧
    (1 ∉ dict_values (_tools m')) ∧
    (∀ g', 1 ∉ members_of m' g').
Proof.
  apply (C3_readd_replaces_record demo_manager 2 (Some "rds") None None 1).
  - exists demo_calls. reflexivity.
  - reflexivity.
Defined.

(** ** Registration parameters *)

(** The claim of C4 fails: a second [add_tool] for operation [1], without
    parameters, replaces the stored [("describe",)] by [()]. *)
Lemma C4_counterexample :
  ∃ m m',
    add_tool ToolsetManager_init 1 (Some "rds") (Some [PyStr "describe"]) None = Ok m ∧
    args <$> record_of m 1 = Some [PyStr "describe"] ∧
    add_tool m 1 (Some "rds") None None = Ok m' ∧
    args <$> record_of m' 1 = Some [] ∧
    args <$> record_of m' 1 ≠ args <$> record_of m 1.
Proof. eexists _, _. split_and!; [reflexivity..|done]. Qed.

(** C4, amended. The parameters of a record are those of the latest
    [add_tool] call for its operation, [()] and [{}] where the call gives
    none; [set_group] on any operation and [enable] leave the parameters of
    every recorded operation as they are, and [add_tool] leaves the records
    of the other operations as they are. *)
Theorem C4_parameters_follow_latest_add (m : ToolsetManager) :
  reachable m →
  (∀ f g f' o, record_of m f' = Some o →
     ∃ m' o', set_group m f g = Ok m' ∧ record_of m' f' = Some o' ∧
              args o' = args o ∧ kwargs o' = kwargs o) ∧
  (∀ gs f', record_of (enable m gs) f' = record_of m f') ∧
  (∀ f g a kw,
     ∃ m', add_tool m f g a kw = Ok m' ∧
       (∃ o', record_of m' f = Some o' ∧
              args o' = default [] a ∧ kwargs o' = default [] kw) ∧
       (∀ f' o, f' ≠ f → record_of m f' = Some o → record_of m' f' = Some o)).
Proof.
  intros HI%reachable_Inv. split_and!.
  - intros f g f' o Hrec.
    destruct (record_of_lookup m f' o HI Hrec) as (l' & Hl' & Ho' & Hfo').
    destruct (dict_get (_tools m) f) as [l|] eqn:Hf.
    + destruct (inv_tools _ _ HI f ltac:(done) l Hf) as (o1 & Ho1 & Hfo1 & _).
      destruct (decide (group o1 = g)) as [Hg|Hg].
      * exists m, o. by rewrite (set_group_same m f g l o1).
      * destruct (set_group_move_Inv m f g l o1 HI Hf Ho1 Hg) as [-> _].
        destruct (decide (f' = f)) as [->|Hne].
        -- assert (l' = l) as -> by congruence.
           assert (o1 = o) as -> by congruence.
           exists (set_group_moved m f g l o), (set_info_group o g).
           split_and!; [done| |done..].
           unfold record_of. simpl. rewrite dict_get_set_eq. simpl.
           apply list_lookup_insert_eq. by eapply lookup_lt_Some.
        -- exists (set_group_moved m f g l o1), o. split_and!; [done| |done..].
           unfold record_of. simpl. rewrite dict_get_set_ne, Hl' by done. simpl.
           rewrite list_lookup_insert_ne; [done|]. intros ->. congruence.
    + assert (f' ≠ f) as Hne by (intros ->; congruence).
      unfold set_group. rewrite Hf.
      destruct (add_tool_Inv m f (Some g) None None HI) as [-> _].
      eexists _, o. split_and!; [done| |done..].
      by apply add_tool_result_record_ne.
  - done.
  - intros f g a kw. destruct (add_tool_Inv m f g a kw HI) as [-> _].
    eexists. split_and!; [done| |].
    + eexists. split_and!; [apply add_tool_result_record|done..].
    + intros f' o Hne Hrec. by apply add_tool_result_record_ne.
Qed.

Lemma C4_witness :
  (∀ f g f' o, record_of demo_manager f' = Some o →
     ∃ m' o', set_group demo_manager f g = Ok m' ∧ record_of m' f' = Some o' ∧
              args o' = args o ∧ kwargs o' = kwargs o) ∧
  (∀ gs f', record_of (enable demo_manager gs) f' = record_of demo_manager f') ∧
  (∀ f g a kw,
     ∃ m', add_tool demo_manager f g a kw = Ok m' ∧
       (∃ o', record_of m' f = Some o' ∧
              args o' = default [] a ∧ kwargs o' = default [] kw) ∧
       (∀ f' o, f' ≠ f → record_of demo_manager f' = Some o →
                record_of m' f' = Some o)).
Proof.
  apply (C4_parameters_follow_latest_add demo_manager).
  exists demo_calls. reflexivity.
Defined.

(** ** Groups without tools *)

Lemma run_app cs1 cs2 m :
  run m (cs1 ++ cs2) = m1 ← run m cs1; run m1 cs2.
Proof.
  revert m. induction cs1 as [|c cs1 IH]; intros m; simpl; [done|].
  destruct (step m c); simpl; [apply IH | done].
Qed.

Lemma reachable_step m c m' : reachable m → step m c = Ok m' → reachable m'.
Proof.
  intros [cs Hcs] Hstep. exists (cs ++ [c]).
  rewrite run_app, Hcs. simpl. by rewrite Hstep.
Qed.

Lemma elem_of_enable m gs g :
  g ∈ enabled (enable m gs) ↔ g ∈ gs ∨ g ∈ enabled m.
Proof.
  unfold enable. simpl. generalize (enabled m) as s.
  induction gs as [|g0 gs IH]; intros s; simpl.
  - rewrite elem_of_nil. tauto.
  - rewrite IH, elem_of_cons, elem_of_union, elem_of_singleton. tauto.
Qed.

Lemma Inv_members_valid m g i :
  Inv m → i ∈ members_of m g →
  ∃ o, store m !! i = Some o ∧ group o = g ∧ record_of m (func o) = Some o.
Proof.
  intros HI Hi. apply members_of_elem in Hi as (ls & Hls & Hi).
  destruct (inv_groups _ _ HI _ _ Hls) as [_ Hall].
  destruct (Hall i Hi) as (o & Ho & Hg & Ht & _).
  exists o. split_and!; [done..|]. unfold record_of. by rewrite Ht.
Qed.

Lemma Inv_no_tools_members m g :
  Inv m → (∀ f o, record_of m f = Some o → group o ≠ g) → members_of m g = [].
Proof.
  intros HI Hnone. destruct (members_of m g) as [|i rest] eqn:Hm; [done|].
  destruct (Inv_members_valid m g i HI) as (o & _ & Hg & Hrec).
  { rewrite Hm. left. }
  by destruct (Hnone _ _ Hrec).
Qed.

Lemma enabled_tools_loop_ok m names :
  Inv m → ∀ res,
  ∃ r, enabled_tools_loop m names res = Ok r ∧
    ∀ g, r !! g = if decide (g ∈ names) then Some (group_funcs m g) else res !! g.
Proof.
  intros HI. induction names as [|name names IH]; intros res;
    cbn [enabled_tools_loop].
  - exists res. split; [done|]. intros g. rewrite decide_False; [done|].
    apply not_elem_of_nil.
  - fold (members_of m name). rewrite funcs_of_ok.
    2:{ intros i Hi. destruct (Inv_members_valid m name i HI Hi) as (o & -> & _).
        by eexists. }
    simpl. destruct (IH (<[name := group_funcs m name]> res)) as (r & Hr & Hlook).
    exists r. split; [done|]. intros g. rewrite Hlook.
    destruct (decide (g ∈ names)) as [Hin|Hnin].
    + rewrite decide_True; [done|]. by right.
    + destruct (decide (g = name)) as [->|Hne].
      * rewrite decide_True by left. by rewrite lookup_insert_eq.
      * rewrite decide_False.
        -- by rewrite lookup_insert_ne.
        -- intros [?|?]%elem_of_cons; done.
Qed.

Lemma get_enabled_tools_ok m :
  Inv m →
  ∃ r, get_enabled_tools m = Ok r ∧
    ∀ g, r !! g = if decide (g ∈ enabled m) then Some (group_funcs m g) else None.
Proof.
  intros HI. unfold get_enabled_tools.
  destruct (enabled_tools_loop_ok m (elements (enabled m)) HI ∅) as (r & Hr & Hlook).
  exists r. split; [done|]. intros g. rewrite Hlook, lookup_empty.
  destruct (decide (g ∈ enabled m)) as [Hin|Hnin].
  - rewrite decide_True; [done|]. by apply elem_of_elements.
  - rewrite decide_False; [done|]. by rewrite elem_of_elements.
Qed.

Lemma selected_enable_empty m g :
  Inv m → (∀ f o, record_of m f = Some o → group o ≠ g) →
  selected (enable m [g]) = selected m.
Proof.
  intros HI Hnone. unfold selected. simpl.
  assert (Hsub : ∀ f l, (f, l) ∈ _tools m → dict_get (_tools m) f = Some l).
  { intros f l. apply elem_dict_get, HI. }
  revert Hsub. generalize (_tools m) at 1 3 4 as d.
  induction d as [|[f l] d IH]; intros Hsub; csimpl; [done|].
  assert (Hf : dict_get (_tools m) f = Some l) by (apply Hsub; left).
  destruct (inv_tools _ _ HI f ltac:(done) l Hf) as (o & Ho & Hfo & _).
  assert (Hog : group o ≠ g).
  { apply (Hnone f). unfold record_of. by rewrite Hf. }
  rewrite IH by (intros; apply Hsub; by right).
  unfold selected_at. simpl. rewrite Ho. simpl.
  destruct (decide (group o ∈ enabled m)) as [Hen|Hen].
  - rewrite decide_True; [done|]. apply elem_of_union. by right.
  - rewrite decide_False; [done|].
    intros [Hin|Hin]%elem_of_union; [|done].
    by apply elem_of_singleton in Hin.
Qed.

(** C9. Enabling a group that no record names is accepted; the group is then
    enabled, [get_enabled_tools] returns an empty list for it, activation
    does on every host what it did before and raises nothing on a host that
    raises nothing; and every call of [add_tool], [set_group] or [enable],
    whatever group names it carries, returns. *)
Theorem C9_group_without_tools_is_no_error (m : ToolsetManager) (g : string) :
  reachable m →
  (∀ f o, record_of m f = Some o → group o ≠ g) →
  reachable (enable m [g]) ∧
  g ∈ enabled (enable m [g]) ∧
  (∃ r, get_enabled_tools (enable m [g]) = Ok r ∧ r !! g = Some []) ∧
  (∀ (FastMCP : Type) tool (h : FastMCP),
     register_enabled tool (enable m [g]) h = register_enabled tool m h) ∧
  (register_enabled recording_tool (enable m [g]) []).2 = None ∧
  (∀ c, ∃ m', step m c = Ok m').
Proof.
  intros Hreach Hnone. pose proof (reachable_Inv m Hreach) as HI.
  pose proof (enable_Inv m [g] HI) as HI'.
  split_and!.
  - by apply (reachable_step m (Enable [g])).
  - apply elem_of_enable. left. left.
  - destruct (get_enabled_tools_ok (enable m [g]) HI') as (r & Hr & Hlook).
    exists r. split; [done|]. rewrite Hlook.
    rewrite decide_True by (apply elem_of_enable; left; left).
    unfold group_funcs.
    change (members_of (enable m [g]) g) with (members_of m g).
    by rewrite (Inv_no_tools_members m g HI Hnone).
  - intros FastMCP tool h.
    by rewrite !register_enabled_replay, selected_enable_empty.
  - by rewrite register_enabled_replay, replay_recording.
  - intros c. destruct (step_Inv m c HI) as (m' & Hm' & _). eauto.
Qed.

Lemma C9_witness :
  reachable (enable demo_manager ["nosuch"]) ∧
  "nosuch" ∈ enabled (enable demo_manager ["nosuch"]) ∧
  (∃ r, get_enabled_tools (enable demo_manager ["nosuch"]) = Ok r ∧
        r !! "nosuch" = Some []) ∧
  (∀ (FastMCP : Type) tool (h : FastMCP),
     register_enabled tool (enable demo_manager ["nosuch"]) h
     = register_enabled tool demo_manager h) ∧
  (register_enabled recording_tool (enable demo_manager ["nosuch"]) []).2 = None ∧
  (∀ c, ∃ m', step demo_manager c = Ok m').
Proof.
  apply (C9_group_without_tools_is_no_error demo_manager "nosuch").
  - exists demo_calls. reflexivity.
  - intros f o. unfold record_of. simpl.
    destruct f as [|[|[|[|f]]]]; simpl; intros [= <-]; done.
Defined.

(** ** Strings *)

Lemma split_nonempty sep s : split sep s ≠ [].
Proof.
  destruct s as [|c s]; simpl; [done|].
  destruct (Ascii.eqb c sep); [done|]. by destruct (split sep s).
Qed.

Lemma join_split sep s : join (String sep "") (split sep s) = s.
Proof.
  induction s as [|c s IH]; simpl; [done|].
  destruct (Ascii.eqb_spec c sep) as [->|Hne].
  - pose proof (split_nonempty sep s) as Hne.
    destruct (split sep s) as [|t ts]; [done|]. simpl in *. by rewrite IH.
  - destruct (split sep s) as [|t ts]; simpl in *; [by subst|].
    destruct ts as [|t' ts]; simpl in *; by rewrite <-IH.
Qed.

Lemma split_no_sep sep s t : t ∈ split sep s → ¬ str_in sep t.
Proof.
  revert t. induction s as [|c s IH]; intros t; simpl.
  - intros ->%list_elem_of_singleton. simpl. tauto.
  - destruct (Ascii.eqb_spec c sep) as [->|Hne].
    + intros [->|Hin]%elem_of_cons; [simpl; tauto | by apply IH].
    + destruct (split sep s) as [|t0 ts].
      * intros ->%list_elem_of_singleton. simpl. tauto.
      * intros [->|Hin]%elem_of_cons.
        -- simpl. intros [?|?]; [done|]. apply (IH t0); [left | done].
        -- apply IH. by right.
Qed.

Lemma str_in_app c a b : str_in c (a +:+ b) ↔ str_in c a ∨ str_in c b.
Proof. induction a as [|c' a IH]; simpl; [tauto | rewrite IH; tauto]. Qed.

Lemma lstrip_spec s :
  ∃ l, s = l +:+ lstrip s ∧ all_space l = true ∧
       ∀ c, head_char (lstrip s) = Some c → isspace c = false.
Proof.
  induction s as [|c s (l & Hl & Hsp & Hhd)]; simpl.
  - exists "". done.
  - destruct (isspace c) eqn:Hc.
    + exists (String c l). simpl. rewrite Hc, Hsp. split_and!; [|done..].
      change (String c s = String c (l +:+ lstrip s)). by f_equal.
    + exists "". split_and!; [done..|]. simpl. by intros ? [= <-].
Qed.

Lemma rstrip_spec s :
  ∃ r, s = rstrip s +:+ r ∧ all_space r = true ∧
       ∀ c, last_char (rstrip s) = Some c → isspace c = false.
Proof.
  induction s as [|c s (r & Hr & Hsp & Hlast)]; simpl.
  - exists "". done.
  - destruct (rstrip s) as [|c' r'] eqn:Hrs.
    + cbn in Hr. subst s. destruct (isspace c) eqn:Hc.
      * exists (String c r). cbn. by rewrite Hc, Hsp.
      * exists r. split_and!; [done..|]. cbn. by intros ? [= <-].
    + exists r. split_and!; [|done..].
      change (String c s = String c (String c' r' +:+ r)). by f_equal.
Qed.

Lemma head_char_app a b c : head_char a = Some c → head_char (a +:+ b) = Some c.
Proof. by destruct a. Qed.

(** [strip] takes white space, and nothing else, from both ends. *)
Lemma strip_spec t :
  ∃ l r, t = l +:+ strip t +:+ r ∧ all_space l = true ∧ all_space r = true ∧
    (∀ c, head_char (strip t) = Some c → isspace c = false) ∧
    (∀ c, last_char (strip t) = Some c → isspace c = false).
Proof.
  destruct (lstrip_spec t) as (l & Hl & Hlsp & Hhd).
  destruct (rstrip_spec (lstrip t)) as (r & Hr & Hrsp & Hlast).
  exists l, r. unfold strip. split_and!; [by rewrite <-Hr | done.. | | done].
  intros c Hc. apply Hhd. rewrite Hr. by apply head_char_app.
Qed.

Lemma strip_no_new_chars c t : str_in c (strip t) → str_in c t.
Proof.
  destruct (strip_spec t) as (l & r & Ht & _). intros Hin.
  rewrite Ht, !str_in_app. tauto.
Qed.

Lemma str_bool_true s : str_bool s = true ↔ s ≠ "".
Proof. by destruct s. Qed.

Lemma list_or_decide {A} `{EqDecision A} (xs ys : list A) :
  list_or xs ys = if decide (xs = []) then ys else xs.
Proof. by destruct xs. Qed.

Lemma enabled_groups_spec toolsets :
  enabled_groups toolsets = spec_enabled_groups toolsets.
Proof.
  destruct toolsets as [|s|l]; simpl; [done| |apply list_or_decide].
  rewrite list_or_decide. unfold spec_tokens.
  assert (Heq : flat_map (λ g, if str_bool (strip g) then [strip g] else [])
                  (split "," s)
                = filter (λ t, t ≠ "") (strip <$> split "," s)).
  { induction (split "," s) as [|g gs IH]; csimpl; [done|].
    rewrite filter_cons, IH. destruct (strip g) as [|c t]; cbn [str_bool].
    - rewrite decide_False; [done | intros H; by apply H].
    - by rewrite decide_True. }
  by rewrite Heq.
Qed.

Lemma spec_tokens_elem s t :
  t ∈ spec_tokens s →
  t ≠ "" ∧ ¬ str_in "," t ∧
  (∀ c, head_char t = Some c → isspace c = false) ∧
  (∀ c, last_char t = Some c → isspace c = false).
Proof.
  unfold spec_tokens.
  intros [Hne (g & -> & Hg)%list_elem_of_fmap]%list_elem_of_filter.
  destruct (strip_spec g) as (l & r & _ & _ & _ & Hhd & Hlast).
  split_and!; [done| |done..].
  intros Hin%strip_no_new_chars. by apply (split_no_sep _ _ _ Hg).
Qed.

(** ** Start-up *)

Lemma enabled_enable m gs : enabled (enable m gs) = list_to_set gs ∪ enabled m.
Proof.
  apply set_eq. intros g.
  by rewrite elem_of_enable, elem_of_union, elem_of_list_to_set.
Qed.

Lemma add_tool_total m f g a kw :
  Inv m → ∃ m', add_tool m f g a kw = Ok m' ∧ Inv m' ∧ enabled m' = enabled m.
Proof.
  intros HI. destruct (add_tool_Inv m f g a kw HI) as [-> HI'].
  eexists. split_and!; [done..|].
  unfold add_tool_result. simpl. by destruct (record_of m f).
Qed.

Lemma set_group_total m f g :
  Inv m → ∃ m', set_group m f g = Ok m' ∧ Inv m' ∧ enabled m' = enabled m.
Proof.
  intros HI. destruct (dict_get (_tools m) f) as [l|] eqn:Hf.
  - destruct (inv_tools _ _ HI f ltac:(done) l Hf) as (o & Ho & _).
    destruct (decide (group o = g)) as [Hg|Hg].
    + exists m. by rewrite (set_group_same m f g l o).
    + destruct (set_group_move_Inv m f g l o HI Hf Ho Hg) as [-> HI'].
      eexists. split_and!; done.
  - unfold set_group. rewrite Hf. by apply add_tool_total.
Qed.

Lemma load_groups_total m srv :
  Inv m → ∃ m', load_groups m srv = Ok m' ∧ Inv m' ∧ enabled m' = enabled m.
Proof.
  intros HI. unfold load_groups.
  assert (H1 : ∃ m1, match describe_db_instances srv with
                     | Some f => set_group m f "rds"
                     | None => Ok m
                     end = Ok m1 ∧ Inv m1 ∧ enabled m1 = enabled m).
  { destruct (describe_db_instances srv); [by apply set_group_total | by exists m]. }
  destruct H1 as (m1 & -> & HI1 & He1). simpl.
  assert (H2 : ∃ m2, match describe_db_instance_attribute srv with
                     | Some f => set_group m1 f "rds"
                     | None => Ok m1
                     end = Ok m2 ∧ Inv m2 ∧ enabled m2 = enabled m1).
  { destruct (describe_db_instance_attribute srv);
      [by apply set_group_total | by exists m1]. }
  destruct H2 as (m2 & -> & HI2 & He2). simpl.
  assert (H3 : ∃ m3, import_rds_custom srv m2 = Ok m3 ∧ Inv m3
                     ∧ enabled m3 = enabled m2).
  { unfold import_rds_custom, ToolsetMCP_tool.
    destruct (rds_custom_imported srv); [by exists m2 | by apply add_tool_total]. }
  destruct H3 as (m3 & -> & HI3 & He3). simpl.
  destruct (set_group_total m3 (custom_echo srv) "custom" HI3) as (m4 & -> & HI4 & He4).
  exists m4. split_and!; [done..|]. congruence.
Qed.

(** C6. The groups [initialize_toolsets] enables are [default] for an absent
    argument; for a string, its comma-separated tokens, trimmed, without the
    empty ones, and [default] when none is left; for a list, its names, and
    [default] when it is empty.  A token that is kept is not empty, holds no
    comma and neither begins nor ends with white space.  The call returns
    and adds exactly these groups to the enabled set. *)
Theorem C6_groups_to_enable {FastMCP : Type}
    (tool : FastMCP → list Any → list (string * Any) → Callable → FastMCP * option exn)
    (srv : server_module) (toolsets : toolsets_arg)
    (m : ToolsetManager) (h : FastMCP) :
  reachable m →
  enabled_groups ToolsetsNone = ["default"] ∧
  (∀ s, enabled_groups (ToolsetsStr s)
        = if decide (spec_tokens s = []) then ["default"] else spec_tokens s) ∧
  (∀ s, join "," (split "," s) = s) ∧
  (∀ s t, t ∈ spec_tokens s →
     t ≠ "" ∧ ¬ str_in "," t ∧
     (∀ c, head_char t = Some c → isspace c = false) ∧
     (∀ c, last_char t = Some c → isspace c = false)) ∧
  enabled_groups (ToolsetsStr "rds, custom") = ["rds"; "custom"] ∧
  enabled_groups (ToolsetsStr "rds,,custom,") = ["rds"; "custom"] ∧
  (∀ l, enabled_groups (ToolsetsList l) = if decide (l = []) then ["default"] else l) ∧
  ∃ m' out,
    initialize_toolsets tool srv toolsets m h = Ok (m', out) ∧
    enabled m' = list_to_set (enabled_groups toolsets) ∪ enabled m.
Proof.
  intros HI%reachable_Inv. split_and!.
  - done.
  - intros s. apply (enabled_groups_spec (ToolsetsStr s)).
  - intros s. apply join_split.
  - apply spec_tokens_elem.
  - reflexivity.
  - reflexivity.
  - intros l. apply (enabled_groups_spec (ToolsetsList l)).
  - unfold initialize_toolsets.
    destruct (load_groups_total m srv HI) as (m1 & -> & HI1 & He1). simpl.
    eexists _, _. split; [done|]. by rewrite enabled_enable, He1.
Qed.

Lemma C6_witness :
  enabled_groups ToolsetsNone = ["default"] ∧
  (∀ s, enabled_groups (ToolsetsStr s)
        = if decide (spec_tokens s = []) then ["default"] else spec_tokens s) ∧
  (∀ s, join "," (split "," s) = s) ∧
  (∀ s t, t ∈ spec_tokens s →
     t ≠ "" ∧ ¬ str_in "," t ∧
     (∀ c, head_char t = Some c → isspace c = false) ∧
     (∀ c, last_char t = Some c → isspace c = false)) ∧
  enabled_groups (ToolsetsStr "rds, custom") = ["rds"; "custom"] ∧
  enabled_groups (ToolsetsStr "rds,,custom,") = ["rds"; "custom"] ∧
  (∀ l, enabled_groups (ToolsetsList l) = if decide (l = []) then ["default"] else l) ∧
  ∃ m' out,
    initialize_toolsets recording_tool demo_server (ToolsetsStr "rds,,custom,")
      ToolsetManager_init [] = Ok (m', out) ∧
    enabled m' = list_to_set (enabled_groups (ToolsetsStr "rds,,custom,"))
                 ∪ enabled ToolsetManager_init.
Proof.
  apply (C6_groups_to_enable recording_tool demo_server (ToolsetsStr "rds,,custom,")
           ToolsetManager_init []).
  exists []. reflexivity.
Defined.

(** The scenarios of the specification, run on the model. *)
Example scenario_only_rds_enabled :
  (m ← run ToolsetManager_init
         [AddTool 1 (Some "rds") None None; AddTool 2 None None None; Enable ["rds"]];
   Ok (register_enabled recording_tool m []))
  = Ok ([(1, [], [])], None).
Proof. reflexivity. Qed.

Example scenario_reassigned_tool :
  (m ← run ToolsetManager_init
         [AddTool 3 None None None; SetGroup 3 "custom"; Enable ["default"; "custom"]];
   Ok (register_enabled recording_tool m [], group <$> record_of m 3))
  = Ok (([(3, [], [])], None), Some "custom").
Proof. reflexivity. Qed.

Example scenario_initialize_default :
  (r ← initialize_toolsets recording_tool demo_server ToolsetsNone
         ToolsetManager_init [];
   Ok (elements (enabled r.1), r.2))
  = Ok (["default"], ([], None)).
Proof. reflexivity. Qed.

Example scenario_initialize_rds_custom :
  (r ← initialize_toolsets recording_tool demo_server (ToolsetsStr "rds, custom")
         ToolsetManager_init [];
   Ok r.2)
  = Ok ([(1, [], []); (2, [], []); (3, [], [])], None).
Proof. reflexivity. Qed.


(** * Further properties of the registry *)

(** ** [enable] *)

Lemma manager_eq m1 m2 :
  store m1 = store m2 → _tools m1 = _tools m2 → groups m1 = groups m2 →
  enabled m1 = enabled m2 → m1 = m2.
Proof. destruct m1, m2. simpl. by intros -> -> -> ->. Qed.

(** X1. [enable] is a union with the enabled set: two calls commute, a
    repeated call changes nothing, and a call returns the manager it was
    given exactly when all its names are enabled already. *)
Theorem X1_enable_is_union (m : ToolsetManager) (gs gs' : list string) :
  enable (enable m gs) gs' = enable (enable m gs') gs ∧
  enable (enable m gs) gs = enable m gs ∧
  enable (enable m gs) gs' = enable m (gs ++ gs') ∧
  (enable m gs = m ↔ ∀ g, g ∈ gs → g ∈ enabled m).
Proof.
  split_and!.
  - apply manager_eq; try done. apply set_eq. intros g.
    rewrite !elem_of_enable. tauto.
  - apply manager_eq; try done. apply set_eq. intros g.
    rewrite !elem_of_enable. tauto.
  - apply manager_eq; try done. apply set_eq. intros g.
    rewrite !elem_of_enable, elem_of_app. tauto.
  - split.
    + intros Heq g Hg. rewrite <-Heq. apply elem_of_enable. by left.
    + intros Hall. apply manager_eq; try done. apply set_eq. intros g.
      rewrite elem_of_enable. split; [intros [?|?]; auto | auto].
Qed.

(** ** [get_enabled_groups] *)

Lemma step_enabled m c m' :
  Inv m → step m c = Ok m' →
  ∀ g, g ∈ enabled m' ↔ g ∈ enabled m ∨ ∃ gs, c = Enable gs ∧ g ∈ gs.
Proof.
  intros HI Hstep g. destruct c as [f g0 a kw|f g0|gs]; simpl in Hstep.
  - destruct (add_tool_total m f g0 a kw HI) as (m1 & Hm1 & _ & He).
    assert (m1 = m') as -> by congruence. rewrite He.
    split; [auto | intros [?|(gs & ? & _)]; done].
  - destruct (set_group_total m f g0 HI) as (m1 & Hm1 & _ & He).
    assert (m1 = m') as -> by congruence. rewrite He.
    split; [auto | intros [?|(gs & ? & _)]; done].
  - injection Hstep as <-. rewrite elem_of_enable. split.
    + intros [?|?]; [right; by exists gs | by left].
    + intros [?|(gs' & [= <-] & ?)]; auto.
Qed.

Lemma run_enabled cs : ∀ m m',
  Inv m → run m cs = Ok m' →
  ∀ g, g ∈ enabled m' ↔ g ∈ enabled m ∨ ∃ gs, Enable gs ∈ cs ∧ g ∈ gs.
Proof.
  induction cs as [|c cs IH]; intros m m' HI; simpl.
  - intros [= <-] g. split; [auto|]. intros [?|(gs & Hin & _)]; [done|].
    by apply elem_of_nil in Hin.
  - destruct (step_Inv m c HI) as (m1 & Hstep & HI1). rewrite Hstep. simpl.
    intros Hrun g. rewrite (IH _ _ HI1 Hrun g), (step_enabled _ _ _ HI Hstep g).
    split.
    + intros [[?|(gs & -> & ?)]|(gs & Hin & ?)]; [by left | right..].
      * exists gs. split; [left | done].
      * exists gs. split; [by right | done].
    + intros [?|(gs & [<-|Hin]%elem_of_cons & ?)].
      * by left; left.
      * left. right. by exists gs.
      * right. by exists gs.
Qed.

(** X2. After any sequence of calls on a fresh registry,
    [get_enabled_groups] lists, without repetition, exactly the names that
    some [enable] call of the sequence carried: [add_tool] and [set_group]
    enable nothing, and nothing is ever disabled. *)
Theorem X2_enabled_groups_come_from_enable (cs : list call) :
  ∃ m, run ToolsetManager_init cs = Ok m ∧
    NoDup (get_enabled_groups m) ∧
    ∀ g, g ∈ get_enabled_groups m ↔ ∃ gs, Enable gs ∈ cs ∧ g ∈ gs.
Proof.
  destruct (run_Inv cs _ Inv_init) as (m & Hm & HI).
  exists m. split_and!; [done| |].
  - unfold get_enabled_groups. apply NoDup_elements.
  - intros g. unfold get_enabled_groups.
    rewrite elem_of_elements, (run_enabled cs _ _ Inv_init Hm g). simpl.
    split; [intros [Hin|?]; [by apply not_elem_of_empty in Hin | done] | auto].
Qed.

(** ** [get_registered_groups] *)

Lemma dict_keys_set_last {K V} `{EqDecision K} (d : pydict K V) k v :
  dict_keys (dict_set d k v)
  = if decide (k ∈ dict_keys d) then dict_keys d else dict_keys d ++ [k].
Proof.
  rewrite dict_keys_set. destruct (dict_get d k) eqn:Hk.
  - rewrite decide_True; [done|].
    destruct (decide (k ∈ dict_keys d)) as [|Hn]; [done|].
    apply dict_get_None in Hn. congruence.
  - rewrite decide_False; [done|]. by apply dict_get_None.
Qed.

Lemma dict_keys_group_append gs g l :
  dict_keys (group_append gs g l)
  = if decide (g ∈ dict_keys gs) then dict_keys gs else dict_keys gs ++ [g].
Proof. unfold group_append. destruct (dict_get gs g); apply dict_keys_set_last. Qed.

Lemma dict_get_Some_key {K V} `{EqDecision K} (d : pydict K V) k v :
  dict_get d k = Some v → k ∈ dict_keys d.
Proof.
  intros Hk. destruct (decide (k ∈ dict_keys d)) as [|Hn]; [done|].
  apply dict_get_None in Hn. congruence.
Qed.

Lemma Inv_group_key m f l o :
  Inv m → dict_get (_tools m) f = Some l → store m !! l = Some o →
  group o ∈ dict_keys (groups m).
Proof.
  intros HI Hf Ho.
  destruct (inv_tools _ _ HI f ltac:(done) l Hf) as (o' & Ho' & _ & Hmem).
  assert (o' = o) as -> by congruence.
  apply members_of_elem in Hmem as (ls & Hls & _).
  by eapply dict_get_Some_key.
Qed.

Lemma dropped_keys m f l o :
  Inv m → dict_get (_tools m) f = Some l → store m !! l = Some o →
  dict_keys (groups (dropped m (group o) f)) = dict_keys (groups m).
Proof.
  intros HI Hf Ho. simpl. rewrite dict_keys_set_last.
  rewrite decide_True; [done|]. by eapply Inv_group_key.
Qed.

Lemma add_tool_result_group_keys m f g a kw :
  Inv m →
  dict_keys (groups (add_tool_result m f g a kw))
  = if decide (g ∈ dict_keys (groups m)) then dict_keys (groups m)
    else dict_keys (groups m) ++ [g].
Proof.
  intros HI. unfold add_tool_result, attached. cbn [groups].
  rewrite dict_keys_group_append.
  destruct (record_of m f) as [o|] eqn:Hrec; [|done].
  destruct (record_of_lookup m f o HI Hrec) as (l & Hl & Ho & _).
  by rewrite (dropped_keys m f l o HI Hl Ho).
Qed.

Lemma step_group_keys m c m' :
  Inv m → step m c = Ok m' →
  dict_keys (groups m') = note_group (dict_keys (groups m)) c.
Proof.
  intros HI. destruct c as [f g a kw|f g|gs]; unfold note_group; simpl.
  - destruct (add_tool_Inv m f g a kw HI) as [-> _]. intros [= <-].
    by apply add_tool_result_group_keys.
  - destruct (dict_get (_tools m) f) as [l|] eqn:Hf.
    + destruct (inv_tools _ _ HI f ltac:(done) l Hf) as (o & Ho & _).
      destruct (decide (group o = g)) as [Hg|Hg].
      * rewrite (set_group_same m f g l o) by done. intros [= <-].
        rewrite decide_True; [done|]. subst g. by eapply Inv_group_key.
      * destruct (set_group_move_Inv m f g l o HI Hf Ho Hg) as [-> _].
        intros [= <-]. unfold set_group_moved, attached. cbn [groups].
        by rewrite dict_keys_group_append, (dropped_keys m f l o HI Hf Ho).
    + unfold set_group. rewrite Hf.
      destruct (add_tool_Inv m f (Some g) None None HI) as [-> _]. intros [= <-].
      by apply add_tool_result_group_keys.
  - by intros [= <-].
Qed.

Lemma run_group_keys cs : ∀ m m',
  Inv m → run m cs = Ok m' →
  dict_keys (groups m') = foldl note_group (dict_keys (groups m)) cs.
Proof.
  induction cs as [|c cs IH]; intros m m' HI; simpl.
  - by intros [= <-].
  - destruct (step_Inv m c HI) as (m1 & Hstep & HI1). rewrite Hstep. simpl.
    intros Hrun. rewrite (IH _ _ HI1 Hrun). f_equal. by apply step_group_keys.
Qed.

Lemma elem_of_note_groups cs : ∀ acc g,
  g ∈ foldl note_group acc cs ↔ g ∈ acc ∨ ∃ c, c ∈ cs ∧ call_group c = Some g.
Proof.
  induction cs as [|c cs IH]; intros acc g; simpl.
  - split; [auto|]. intros [?|(c & Hin & _)]; [done|]. by apply elem_of_nil in Hin.
  - rewrite IH. unfold note_group. split.
    + intros [Hin|(c' & Hin & Hc')].
      * destruct (call_group c) as [g0|] eqn:Hc; [|by left].
        case_decide; [by left|].
        apply elem_of_app in Hin as [?| ->%list_elem_of_singleton]; [by left|].
        right. exists c. split; [left | done].
      * right. exists c'. split; [by right | done].
    + intros [Hin|(c' & [-> |Hin]%elem_of_cons & Hc')].
      * left. destruct (call_group c); [|done].
        case_decide; [done|]. apply elem_of_app. by left.
      * left. rewrite Hc'. case_decide; [done|].
        apply elem_of_app. right. by apply list_elem_of_singleton.
      * right. by exists c'.
Qed.

Lemma note_group_prefix order c : order `prefix_of` note_group order c.
Proof.
  unfold note_group. destruct (call_group c); [|done].
  case_decide; [done|]. by apply prefix_app_r.
Qed.

(** X3. After any sequence of calls [get_registered_groups] lists, each
    once and in the order of first mention, the groups that the [add_tool]
    and [set_group] calls of the sequence named: the group of every record
    is listed, and a name stays listed, at its place, when a later call
    takes the last tool out of the group. *)
Theorem X3_registered_groups_first_named (cs : list call) :
  ∃ m, run ToolsetManager_init cs = Ok m ∧
    get_registered_groups m = first_named cs ∧
    NoDup (get_registered_groups m) ∧
    (∀ g, g ∈ get_registered_groups m ↔ ∃ c, c ∈ cs ∧ call_group c = Some g) ∧
    (∀ f o, record_of m f = Some o → group o ∈ get_registered_groups m) ∧
    (∀ c, ∃ m', step m c = Ok m' ∧
       get_registered_groups m `prefix_of` get_registered_groups m').
Proof.
  destruct (run_Inv cs _ Inv_init) as (m & Hm & HI).
  pose proof (run_group_keys cs _ _ Inv_init Hm) as Hkeys.
  exists m. unfold get_registered_groups. split_and!; [done..| | | |].
  - apply HI.
  - intros g. rewrite Hkeys, elem_of_note_groups. simpl.
    split; [intros [Hin|?]; [by apply elem_of_nil in Hin | done] | auto].
  - intros f o Hrec.
    destruct (record_of_lookup m f o HI Hrec) as (l & Hl & Ho & _).
    by eapply Inv_group_key.
  - intros c. destruct (step_Inv m c HI) as (m' & Hstep & _).
    exists m'. split; [done|].
    rewrite (step_group_keys _ _ _ HI Hstep). apply note_group_prefix.
Qed.

(** ** The listing of a group *)

Lemma NoDup_omap_inj {A B} (F : A → option B) (xs : list A) :
  NoDup xs →
  (∀ x y z, x ∈ xs → y ∈ xs → F x = Some z → F y = Some z → x = y) →
  NoDup (omap F xs).
Proof.
  induction xs as [|x xs IH]; intros Hnd Hinj; csimpl; [apply NoDup_nil_2|].
  apply NoDup_cons in Hnd as [Hx Hnd].
  assert (Hrest : NoDup (omap F xs)).
  { apply IH; [done|]. intros a b z Ha Hb. apply Hinj; by right. }
  destruct (F x) as [z|] eqn:Hz; [|done].
  apply NoDup_cons. split; [|done].
  intros (y & Hy & Hfy)%list_elem_of_omap.
  assert (x = y) as -> by (apply (Hinj x y z); [left | by right | done..]).
  done.
Qed.

Lemma omap_ext_in {A B} (F G : A → option B) (xs : list A) :
  (∀ x, x ∈ xs → F x = G x) → omap F xs = omap G xs.
Proof.
  induction xs as [|x xs IH]; intros Hext; csimpl; [done|].
  rewrite (Hext x) by left. rewrite IH; [done|]. intros. apply Hext. by right.
Qed.

Lemma omap_filter_ne {A B} `{EqDecision B} (F : A → option B) (b : B) (xs : list A) :
  omap F (filter (λ x, F x ≠ Some b) xs) = filter (λ y, y ≠ b) (omap F xs).
Proof.
  induction xs as [|x xs IH]; csimpl; [done|].
  rewrite filter_cons. destruct (F x) as [y|] eqn:Hy.
  - rewrite filter_cons. destruct (decide (y = b)) as [->|Hne].
    + rewrite decide_False by (intros H; by apply H).
      rewrite decide_False by (intros H; by apply H). done.
    + rewrite decide_True by congruence. rewrite decide_True by done.
      csimpl. by rewrite Hy, IH.
  - rewrite decide_True by done. csimpl. by rewrite Hy.
Qed.

Lemma filter_ne_id {A} `{EqDecision A} (a : A) (xs : list A) :
  a ∉ xs → filter (λ y, y ≠ a) xs = xs.
Proof.
  induction xs as [|x xs IH]; intros Hnin; [done|].
  apply not_elem_of_cons in Hnin as [Hne Hnin].
  rewrite filter_cons, decide_True by done. by rewrite IH.
Qed.

Lemma group_funcs_elem m g f :
  Inv m → f ∈ group_funcs m g ↔ ∃ o, record_of m f = Some o ∧ group o = g.
Proof.
  intros HI. unfold group_funcs. rewrite list_elem_of_omap. split.
  - intros (i & Hi & Hfi).
    destruct (Inv_members_valid m g i HI Hi) as (o & Ho & Hg & Hrec).
    rewrite Ho in Hfi. injection Hfi as <-. by exists o.
  - intros (o & Hrec & <-).
    destruct (record_of_lookup m f o HI Hrec) as (l & Hl & Ho & Hfo).
    destruct (inv_tools _ _ HI f ltac:(done) l Hl) as (o' & Ho' & _ & Hmem).
    assert (o' = o) as -> by congruence.
    exists l. split; [done|]. rewrite Ho. simpl. by rewrite Hfo.
Qed.

Lemma members_of_NoDup hide m g : Inv_gen hide m → NoDup (members_of m g).
Proof.
  intros HI. unfold members_of.
  destruct (dict_get (groups m) g) as [ls|] eqn:Hls; simpl.
  - by destruct (inv_groups _ _ HI _ _ Hls).
  - apply NoDup_nil_2.
Qed.

Lemma group_funcs_NoDup m g : Inv m → NoDup (group_funcs m g).
Proof.
  intros HI. apply NoDup_omap_inj; [by eapply members_of_NoDup|].
  intros i j z Hi Hj Hfi Hfj.
  apply members_of_elem in Hi as (ls & Hls & Hi).
  apply members_of_elem in Hj as (ls' & Hls' & Hj).
  assert (ls' = ls) as -> by congruence.
  destruct (inv_groups _ _ HI _ _ Hls) as [_ Hall].
  destruct (Hall i Hi) as (oi & Hoi & _ & Hti & _).
  destruct (Hall j Hj) as (oj & Hoj & _ & Htj & _).
  rewrite Hoi in Hfi. rewrite Hoj in Hfj. simpl in *. congruence.
Qed.

Lemma Inv_hide_unrecorded m f :
  Inv m → dict_get (_tools m) f = None → Inv_gen (Some f) m.
Proof.
  intros [Htk Hgk Ht Hg] Hf. split; [done..| |].
  - intros f' Hf'. by apply Ht.
  - intros g' ls Hls. destruct (Hg _ _ Hls) as [Hnd Hall]. split; [done|].
    intros i Hi. destruct (Hall i Hi) as (oi & Hoi & Hgi & Hti & _).
    exists oi. split_and!; [done..|]. intros [= Hfi]. congruence.
Qed.

Lemma group_funcs_dropped m f l o g' :
  Inv m → dict_get (_tools m) f = Some l → store m !! l = Some o →
  group_funcs (dropped m (group o) f) g' = filter (λ y, y ≠ f) (group_funcs m g').
Proof.
  intros HI Hf Ho. unfold group_funcs, members_of, dropped. cbn [groups store].
  rewrite dict_get_set. destruct (decide (group o = g')) as [<-|Hne].
  - simpl. apply omap_filter_ne.
  - fold (members_of m g'). symmetry. apply filter_ne_id.
    fold (group_funcs m g'). rewrite group_funcs_elem by done.
    intros (o' & Hrec & Hg). unfold record_of in Hrec. rewrite Hf in Hrec.
    simpl in Hrec. congruence.
Qed.

Lemma group_funcs_attached mid st' f g l o g' :
  Inv_gen (Some f) mid →
  st' !! l = Some o → func o = f →
  (∀ l' o', store mid !! l' = Some o' → func o' ≠ f → st' !! l' = Some o') →
  group_funcs (attached mid st' f g l) g'
  = group_funcs mid g' ++ (if decide (g' = g) then [f] else []).
Proof.
  intros HI Hl Hfo Hkeep. unfold group_funcs, members_of, attached.
  cbn [groups store]. rewrite dict_get_group_append.
  assert (Hsame : omap (λ i, func <$> st' !! i) (default [] (dict_get (groups mid) g'))
                  = omap (λ i, func <$> store mid !! i)
                      (default [] (dict_get (groups mid) g'))).
  { apply omap_ext_in. intros i Hi.
    apply members_of_elem in Hi as (ls & Hls & Hi).
    destruct (inv_groups _ _ HI _ _ Hls) as [_ Hall].
    destruct (Hall i Hi) as (oi & Hoi & _ & _ & Hne).
    rewrite Hoi, (Hkeep i oi Hoi); [done|]. congruence. }
  destruct (decide (g = g')) as [->|Hne].
  - rewrite decide_True by done. simpl. rewrite omap_app, Hsame. csimpl.
    by rewrite Hl, <-Hfo.
  - rewrite decide_False by congruence. by rewrite Hsame, app_nil_r.
Qed.

Lemma add_tool_result_group_funcs m f g a kw g' :
  Inv m →
  group_funcs (add_tool_result m f g a kw) g'
  = filter (λ y, y ≠ f) (group_funcs m g') ++ (if decide (g' = g) then [f] else []).
Proof.
  intros HI. unfold add_tool_result.
  destruct (record_of m f) as [o|] eqn:Hrec.
  - destruct (record_of_lookup m f o HI Hrec) as (l & Hl & Ho & _).
    destruct (drop_from_group_Inv m f l o HI Hl Ho) as [_ Hmid].
    rewrite (group_funcs_attached _ _ f g _ (ToolInfo f a kw g)); try done.
    + by rewrite (group_funcs_dropped m f l o g' HI Hl Ho).
    + by apply list_lookup_middle.
    + intros l' o' Ho' _. by apply lookup_app_l_Some.
  - pose proof (reachable_record_None m f HI Hrec) as Hf.
    rewrite (group_funcs_attached _ _ f g _ (ToolInfo f a kw g)); try done.
    + rewrite filter_ne_id; [done|]. rewrite group_funcs_elem by done.
      intros (o & Ho & _). congruence.
    + by apply Inv_hide_unrecorded.
    + by apply list_lookup_middle.
    + intros l' o' Ho' _. by apply lookup_app_l_Some.
Qed.

Lemma set_group_moved_group_funcs m f g l o g' :
  Inv m → dict_get (_tools m) f = Some l → store m !! l = Some o →
  group_funcs (set_group_moved m f g l o) g'
  = filter (λ y, y ≠ f) (group_funcs m g') ++ (if decide (g' = g) then [f] else []).
Proof.
  intros HI Hf Ho. unfold set_group_moved.
  destruct (drop_from_group_Inv m f l o HI Hf Ho) as [_ Hmid].
  destruct (inv_tools _ _ HI f ltac:(done) l Hf) as (o' & Ho' & Hfo & _).
  assert (o' = o) as -> by congruence.
  rewrite (group_funcs_attached _ _ f g _ (set_info_group o g)); try done.
  - by rewrite (group_funcs_dropped m f l o g' HI Hf Ho).
  - apply list_lookup_insert_eq. by eapply lookup_lt_Some.
  - intros l' o' Ho'' Hne. simpl in *. rewrite list_lookup_insert_ne; [done|].
    intros ->. congruence.
Qed.

Lemma record_of_other_add m f g a kw f' :
  Inv m → f' ≠ f → record_of (add_tool_result m f g a kw) f' = record_of m f'.
Proof.
  intros HI Hne. destruct (record_of m f') as [o|] eqn:Hrec.
  - by apply add_tool_result_record_ne.
  - pose proof (reachable_record_None m f' HI Hrec) as Hf'.
    unfold record_of. by rewrite add_tool_result_tools, dict_get_set_ne, Hf'.
Qed.

Lemma record_of_other_move m f g l o f' :
  Inv m → dict_get (_tools m) f = Some l → store m !! l = Some o → f' ≠ f →
  record_of (set_group_moved m f g l o) f' = record_of m f'.
Proof.
  intros HI Hf Ho Hne. unfold record_of. simpl.
  rewrite dict_get_set_ne by done.
  destruct (dict_get (_tools m) f') as [l'|] eqn:Hf'; [|done]. simpl.
  destruct (inv_tools _ _ HI f' ltac:(done) l' Hf') as (o' & Ho' & Hfo' & _).
  destruct (inv_tools _ _ HI f ltac:(done) l Hf) as (o2 & Ho2 & Hfo2 & _).
  rewrite list_lookup_insert_ne; [done|]. intros ->. congruence.
Qed.

(** X4. [get_enabled_tools] returns on a reachable registry; its keys are
    the enabled groups; under a group it lists, each once, exactly the
    operations whose record names that group; and the operations it lists
    anywhere are the ones activation registers. *)
Theorem X4_get_enabled_tools_lists_current_groups (m : ToolsetManager) :
  reachable m →
  ∃ r, get_enabled_tools m = Ok r ∧
    dom r = enabled m ∧
    (∀ g fs, r !! g = Some fs →
       NoDup fs ∧ ∀ f, f ∈ fs ↔ ∃ o, record_of m f = Some o ∧ group o = g) ∧
    (∀ f, (∃ g fs, r !! g = Some fs ∧ f ∈ fs)
          ↔ f ∈ ((register_enabled recording_tool m []).1).*1.*1).
Proof.
  intros HI%reachable_Inv.
  destruct (get_enabled_tools_ok m HI) as (r & Hr & Hlook).
  exists r. split_and!; [done| | |].
  - apply set_eq. intros g. rewrite elem_of_dom, Hlook.
    case_decide; [split; [done | by eexists] | split; [by intros [? ?] | done]].
  - intros g fs. rewrite Hlook. case_decide; [|done]. intros [= <-].
    split; [by apply group_funcs_NoDup | intros f; by apply group_funcs_elem].
  - intros f. rewrite register_enabled_replay, replay_recording by done. simpl.
    split.
    + intros (g & fs & Hg & Hf). rewrite Hlook in Hg.
      case_decide as Hen; [|done]. injection Hg as <-.
      apply group_funcs_elem in Hf as (o & Hrec & <-); [|done].
      apply list_elem_of_fmap. exists (f, args o). split; [done|].
      apply list_elem_of_fmap. exists (f, args o, kwargs o). split; [done|].
      apply selected_elem; [done|]. by exists o.
    + intros ([f' a] & -> & ([[f2 a2] kw] & Heq & Hin)%list_elem_of_fmap)%list_elem_of_fmap.
      simpl in *. injection Heq as -> ->.
      apply selected_elem in Hin as (o & Hrec & Hen & _); [|done].
      exists (group o), (group_funcs m (group o)). split.
      * rewrite Hlook. by rewrite decide_True.
      * apply group_funcs_elem; [done|]. by exists o.
Qed.

Lemma X4_witness :
  ∃ r, get_enabled_tools demo_manager = Ok r ∧
    dom r = enabled demo_manager ∧
    (∀ g fs, r !! g = Some fs →
       NoDup fs ∧ ∀ f, f ∈ fs ↔ ∃ o, record_of demo_manager f = Some o ∧ group o = g) ∧
    (∀ f, (∃ g fs, r !! g = Some fs ∧ f ∈ fs)
          ↔ f ∈ ((register_enabled recording_tool demo_manager []).1).*1.*1).
Proof.
  apply (X4_get_enabled_tools_lists_current_groups demo_manager).
  exists demo_calls. reflexivity.
Defined.

(** X5. [set_group] of a recorded operation to another group changes the
    group of its record and nothing else in it, leaves every other record and
    the enabled set as they are, takes the operation out of every listing and
    puts it at the end of the listing of the new group. *)
Theorem X5_set_group_moves_to_end (m : ToolsetManager) (f : Callable)
    (g : string) (o : _ToolInfo) :
  reachable m → record_of m f = Some o → group o ≠ g →
  ∃ m', set_group m f g = Ok m' ∧
    record_of m' f = Some (set_info_group o g) ∧
    (∀ f', f' ≠ f → record_of m' f' = record_of m f') ∧
    enabled m' = enabled m ∧
    ∀ g', group_funcs m' g'
          = filter (λ y, y ≠ f) (group_funcs m g') ++ (if decide (g' = g) then [f] else []).
Proof.
  intros HI%reachable_Inv Hrec Hg.
  destruct (record_of_lookup m f o HI Hrec) as (l & Hl & Ho & _).
  destruct (set_group_move_Inv m f g l o HI Hl Ho Hg) as [-> _].
  eexists. split_and!; [done| | |done|].
  - unfold record_of. simpl. rewrite dict_get_set_eq. simpl.
    apply list_lookup_insert_eq. by eapply lookup_lt_Some.
  - intros f' Hne. by apply record_of_other_move.
  - intros g'. by apply set_group_moved_group_funcs.
Qed.

Lemma X5_witness :
  ∃ m', set_group demo_manager 1 "custom" = Ok m' ∧
    record_of m' 1 = Some (set_info_group (ToolInfo 1 [PyStr "describe"] [] "rds") "custom") ∧
    (∀ f', f' ≠ 1 → record_of m' f' = record_of demo_manager f') ∧
    enabled m' = enabled demo_manager ∧
    ∀ g', group_funcs m' g'
          = filter (λ y, y ≠ 1) (group_funcs demo_manager g')
            ++ (if decide (g' = "custom") then [1] else []).
Proof.
  apply (X5_set_group_moves_to_end demo_manager 1 "custom"
           (ToolInfo 1 [PyStr "describe"] [] "rds")).
  - exists demo_calls. reflexivity.
  - reflexivity.
  - done.
Defined.

(** X6. [add_tool] on a reachable registry returns; the operation then has
    the record of the call, whatever it had before; every other record and
    the enabled set are as they were; the operation is out of every listing
    it was in and at the end of the listing of the call's group. *)
Theorem X6_add_tool_records_and_lists_last (m : ToolsetManager) (f : Callable)
    (g : option string) (a : option (list Any)) (kw : option (list (string * Any))) :
  reachable m →
  ∃ m', add_tool m f g a kw = Ok m' ∧
    record_of m' f
      = Some (ToolInfo f (default [] a) (default [] kw) (default "default" g)) ∧
    (∀ f', f' ≠ f → record_of m' f' = record_of m f') ∧
    enabled m' = enabled m ∧
    ∀ g', group_funcs m' g'
          = filter (λ y, y ≠ f) (group_funcs m g')
            ++ (if decide (g' = default "default" g) then [f] else []).
Proof.
  intros HI%reachable_Inv.
  destruct (add_tool_Inv m f g a kw HI) as [-> _].
  eexists. split_and!; [done| | | |].
  - apply add_tool_result_record.
  - intros f' Hne. by apply record_of_other_add.
  - unfold add_tool_result. simpl. by destruct (record_of m f).
  - intros g'. by apply add_tool_result_group_funcs.
Qed.

Lemma X6_witness :
  ∃ m', add_tool demo_manager 1 None None None = Ok m' ∧
    record_of m' 1 = Some (ToolInfo 1 [] [] "default") ∧
    (∀ f', f' ≠ 1 → record_of m' f' = record_of demo_manager f') ∧
    enabled m' = enabled demo_manager ∧
    ∀ g', group_funcs m' g'
          = filter (λ y, y ≠ 1) (group_funcs demo_manager g')
            ++ (if decide (g' = "default") then [1] else []).
Proof.
  apply (X6_add_tool_records_and_lists_last demo_manager 1 None None None).
  exists demo_calls. reflexivity.
Defined.

(** ** One operation at a time *)

Lemma set_info_group_same o : set_info_group o (group o) = o.
Proof. by destruct o. Qed.

Lemma step_record m c m' f :
  Inv m → step m c = Ok m' → record_of m' f = assign f (record_of m f) c.
Proof.
  intros HI. destruct c as [f' g a kw|f' g|gs]; simpl.
  - destruct (add_tool_Inv m f' g a kw HI) as [-> _]. intros [= <-].
    case_decide as Hff.
    + subst f'. apply add_tool_result_record.
    + by apply record_of_other_add.
  - destruct (dict_get (_tools m) f') as [l|] eqn:Hf'.
    + destruct (inv_tools _ _ HI f' ltac:(done) l Hf') as (o & Ho & Hfo & _).
      destruct (decide (group o = g)) as [Hg|Hg].
      * rewrite (set_group_same m f' g l o) by done. intros [= <-].
        case_decide as Hff; [|done]. clear Hfo. subst f'.
        unfold record_of. rewrite Hf'. simpl. rewrite Ho.
        by rewrite <-Hg, set_info_group_same.
      * destruct (set_group_move_Inv m f' g l o HI Hf' Ho Hg) as [-> _].
        intros [= <-]. case_decide as Hff.
        -- clear Hfo. subst f'. unfold record_of at 2. rewrite Hf'. simpl. rewrite Ho.
           unfold record_of. simpl. rewrite dict_get_set_eq. simpl.
           apply list_lookup_insert_eq. by eapply lookup_lt_Some.
        -- by apply record_of_other_move.
    + unfold set_group. rewrite Hf'.
      destruct (add_tool_Inv m f' (Some g) None None HI) as [-> _]. intros [= <-].
      case_decide as Hff.
      * subst f'. unfold record_of at 2. rewrite Hf'. simpl.
        apply add_tool_result_record.
      * by apply record_of_other_add.
  - by intros [= <-].
Qed.

Lemma run_record cs : ∀ m m' f,
  Inv m → run m cs = Ok m' → record_of m' f = foldl (assign f) (record_of m f) cs.
Proof.
  induction cs as [|c cs IH]; intros m m' f HI; simpl.
  - by intros [= <-].
  - destruct (step_Inv m c HI) as (m1 & Hstep & HI1). rewrite Hstep. simpl.
    intros Hrun. rewrite (IH _ _ f HI1 Hrun). f_equal. by apply step_record.
Qed.

(** X7. The record of an operation depends only on the calls that name it,
    in their order: [add_tool] sets it anew, [set_group] changes its group
    (or creates it without parameters), and calls for other operations and
    [enable] leave it alone.  So the group of an operation is the one of the
    last call that named it. *)
Theorem X7_record_follows_own_calls (cs : list call) (f : Callable) :
  ∃ m, run ToolsetManager_init cs = Ok m ∧
       record_of m f = foldl (assign f) None cs.
Proof.
  destruct (run_Inv cs _ Inv_init) as (m & Hm & HI).
  exists m. split; [done|]. by rewrite (run_record cs _ _ f Inv_init Hm).
Qed.

(** ** Declaring a tool with the decorator *)

(** X8. A tool declared through [ToolsetMCP.tool] is stored with the
    decorator's parameters and group; once that group is enabled activation
    hands the operation to the host with exactly these parameters, and as
    long as the group is not enabled activation does not register it. *)
Theorem X8_decorated_tool_round_trip (m : ToolsetManager) (dargs : list Any)
    (g : option string) (dkwargs : list (string * Any)) (f : Callable) :
  reachable m →
  ∃ m', ToolsetMCP_tool m dargs g dkwargs f = Ok m' ∧
    record_of m' f = Some (ToolInfo f dargs dkwargs (default "default" g)) ∧
    (∀ a kw,
       (f, a, kw) ∈ (register_enabled_tools recording_tool
                       (enable m' [default "default" g]) []).1
       ↔ a = dargs ∧ kw = dkwargs) ∧
    (default "default" g ∉ enabled m →
     ∀ a kw, (f, a, kw) ∉ (register_enabled_tools recording_tool m' []).1).
Proof.
  intros HI%reachable_Inv. unfold ToolsetMCP_tool, register_enabled_tools.
  destruct (add_tool_Inv m f (Some (default "default" g)) (Some dargs) (Some dkwargs) HI)
    as [-> HI'].
  simpl in *.
  set (m' := add_tool_result m f (default "default" g) dargs dkwargs) in *.
  assert (Hrec : record_of m' f = Some (ToolInfo f dargs dkwargs (default "default" g)))
    by apply add_tool_result_record.
  exists m'. split_and!; [done..| |].
  - intros a kw.
    rewrite register_enabled_replay, replay_recording by by apply enable_Inv.
    simpl. rewrite selected_elem by by apply enable_Inv.
    change (record_of (enable m' [default "default" g]) f) with (record_of m' f).
    rewrite Hrec. split.
    + intros (o & [= <-] & _ & -> & ->). done.
    + intros [-> ->]. eexists. split_and!; [done| |done..].
      apply elem_of_enable. left. left.
  - intros Hnen a kw.
    rewrite register_enabled_replay, replay_recording by done. simpl.
    rewrite selected_elem by done. rewrite Hrec.
    intros (o & [= <-] & Hen & _). simpl in Hen. apply Hnen.
    unfold m', add_tool_result in Hen. simpl in Hen.
    by destruct (record_of m f).
Qed.

Lemma X8_witness :
  ∃ m', ToolsetMCP_tool demo_manager [PyStr "echo"] None [("title", PyStr "Echo")] 9
        = Ok m' ∧
    record_of m' 9 = Some (ToolInfo 9 [PyStr "echo"] [("title", PyStr "Echo")] "default") ∧
    (∀ a kw,
       (9, a, kw) ∈ (register_enabled_tools recording_tool
                       (enable m' ["default"]) []).1
       ↔ a = [PyStr "echo"] ∧ kw = [("title", PyStr "Echo")]) ∧
    ("default" ∉ enabled demo_manager →
     ∀ a kw, (9, a, kw) ∉ (register_enabled_tools recording_tool m' []).1).
Proof.
  apply (X8_decorated_tool_round_trip demo_manager [PyStr "echo"] None
           [("title", PyStr "Echo")] 9).
  exists demo_calls. reflexivity.
Defined.

(** ** Activation twice *)

(** X9. Activation keeps no memory of what it has registered: a second
    activation of the same registry hands the host the same registrations
    again, in the same order. *)
Theorem X9_activation_does_not_deduplicate (m : ToolsetManager)
    (log : list registration) :
  reachable m →
  ∃ calls,
    register_enabled recording_tool m log = (log ++ calls, None) ∧
    register_enabled recording_tool m (log ++ calls) = (log ++ calls ++ calls, None).
Proof.
  intros HI%reachable_Inv. exists (selected m).
  rewrite !register_enabled_replay, !replay_recording by done.
  by rewrite <-app_assoc.
Qed.

Lemma X9_witness :
  ∃ calls,
    register_enabled recording_tool demo_manager [] = ([] ++ calls, None) ∧
    register_enabled recording_tool demo_manager ([] ++ calls)
    = ([] ++ calls ++ calls, None).
Proof.
  apply (X9_activation_does_not_deduplicate demo_manager []).
  exists demo_calls. reflexivity.
Defined.

(** ** [load_groups] *)

Lemma bind_Ok {A} (r : result A) : (x ← r; Ok x) = r.
Proof. by destruct r. Qed.

Lemma load_groups_run m srv : load_groups m srv = run m (load_calls srv).
Proof.
  unfold load_groups, load_calls, import_rds_custom, ToolsetMCP_tool.
  destruct (describe_db_instances srv) as [f1|],
           (describe_db_instance_attribute srv) as [f2|],
           (rds_custom_imported srv); simpl;
    repeat match goal with
           | |- context [set_group ?m ?f ?g] =>
               destruct (set_group m f g); simpl; [|done]
           | |- context [add_tool ?m ?f ?g ?a ?kw] =>
               destruct (add_tool m f g a kw); simpl; [|done]
           end; done.
Qed.

Lemma load_calls_custom srv acc :
  group <$> foldl (assign (custom_echo srv)) acc (load_calls srv) = Some "custom".
Proof.
  unfold load_calls. rewrite !app_assoc, foldl_app. simpl.
  rewrite decide_True by done.
  by destruct (foldl _ _ _).
Qed.

Lemma load_calls_rds srv acc f :
  describe_db_instances srv = Some f ∨ describe_db_instance_attribute srv = Some f →
  f ≠ custom_echo srv →
  group <$> foldl (assign f) acc (load_calls srv) = Some "rds".
Proof.
  intros Hd Hne. unfold load_calls.
  destruct (describe_db_instances srv) as [f1|],
           (describe_db_instance_attribute srv) as [f2|],
           (rds_custom_imported srv); simpl;
    destruct Hd as [Hd|Hd]; simplify_eq;
    repeat case_decide; simplify_eq; by destruct acc.
Qed.

Lemma load_calls_other srv acc f :
  describe_db_instances srv ≠ Some f → describe_db_instance_attribute srv ≠ Some f →
  f ≠ custom_echo srv →
  foldl (assign f) acc (load_calls srv) = acc.
Proof.
  intros Hd1 Hd2 Hne. unfold load_calls.
  destruct (describe_db_instances srv) as [f1|],
           (describe_db_instance_attribute srv) as [f2|],
           (rds_custom_imported srv); simpl;
    repeat case_decide; simplify_eq; done.
Qed.

Lemma load_groups_effect m srv :
  Inv m →
  ∃ m', load_groups m srv = Ok m' ∧ run m (load_calls srv) = Ok m' ∧ Inv m' ∧
        enabled m' = enabled m ∧
        ∀ f, record_of m' f = foldl (assign f) (record_of m f) (load_calls srv).
Proof.
  intros HI. destruct (load_groups_total m srv HI) as (m' & Hm' & HI' & He).
  exists m'. rewrite load_groups_run in Hm'. split_and!; [|done..|].
  - by rewrite load_groups_run.
  - intros f. by apply run_record.
Qed.

(** X10. [load_groups] returns on a reachable registry and leaves a
    reachable one; it enables nothing; afterwards [custom_echo] is in group
    [custom], each of the two RDS tools the server has (other than
    [custom_echo]) is in group [rds], and the record of every other operation
    is as it was. *)
Theorem X10_load_groups_assigns_groups (m : ToolsetManager) (srv : server_module) :
  reachable m →
  ∃ m', load_groups m srv = Ok m' ∧
    reachable m' ∧
    enabled m' = enabled m ∧
    group <$> record_of m' (custom_echo srv) = Some "custom" ∧
    (∀ f, describe_db_instances srv = Some f
          ∨ describe_db_instance_attribute srv = Some f →
          f ≠ custom_echo srv → group <$> record_of m' f = Some "rds") ∧
    (∀ f, describe_db_instances srv ≠ Some f →
          describe_db_instance_attribute srv ≠ Some f →
          f ≠ custom_echo srv → record_of m' f = record_of m f).
Proof.
  intros Hreach. pose proof (reachable_Inv m Hreach) as HI.
  destruct (load_groups_effect m srv HI) as (m' & Hm' & Hrun & HI' & He & Hrec).
  exists m'. split_and!; [done| |done| | |].
  - destruct Hreach as [cs Hcs]. exists (cs ++ load_calls srv).
    by rewrite run_app, Hcs.
  - rewrite Hrec. apply load_calls_custom.
  - intros f Hd Hne. rewrite Hrec. by apply load_calls_rds.
  - intros f Hd1 Hd2 Hne. rewrite Hrec. by apply load_calls_other.
Qed.

Lemma X10_witness :
  ∃ m', load_groups demo_manager demo_server = Ok m' ∧
    reachable m' ∧
    enabled m' = enabled demo_manager ∧
    group <$> record_of m' (custom_echo demo_server) = Some "custom" ∧
    (∀ f, describe_db_instances demo_server = Some f
          ∨ describe_db_instance_attribute demo_server = Some f →
          f ≠ custom_echo demo_server → group <$> record_of m' f = Some "rds") ∧
    (∀ f, describe_db_instances demo_server ≠ Some f →
          describe_db_instance_attribute demo_server ≠ Some f →
          f ≠ custom_echo demo_server → record_of m' f = record_of demo_manager f).
Proof.
  apply (X10_load_groups_assigns_groups demo_manager demo_server).
  exists demo_calls. reflexivity.
Defined.

Lemma set_group_same_record m f g :
  Inv m → group <$> record_of m f = Some g → set_group m f g = Ok m.
Proof.
  intros HI Hg. destruct (record_of m f) as [o|] eqn:Hrec; [|done].
  injection Hg as Hg.
  destruct (record_of_lookup m f o HI Hrec) as (l & Hl & Ho & _).
  by apply (set_group_same m f g l o).
Qed.

(** X11. Running [load_groups] again, with [rds_custom] imported by the
    first run, changes nothing, provided neither RDS tool of the server is
    [custom_echo] itself. *)
Theorem X11_load_groups_again_changes_nothing (m : ToolsetManager)
    (srv : server_module) :
  reachable m →
  describe_db_instances srv ≠ Some (custom_echo srv) →
  describe_db_instance_attribute srv ≠ Some (custom_echo srv) →
  ∃ m', load_groups m srv = Ok m' ∧ load_groups m' (imported srv) = Ok m'.
Proof.
  intros HI%reachable_Inv Hd1 Hd2.
  destruct (load_groups_effect m srv HI) as (m' & Hm' & _ & HI' & _ & Hrec).
  exists m'. split; [done|].
  unfold load_groups, import_rds_custom. simpl.
  assert (H1 : match describe_db_instances srv with
               | Some f => set_group m' f "rds"
               | None => Ok m'
               end = Ok m').
  { destruct (describe_db_instances srv) as [f|] eqn:Hf; [|done].
    apply set_group_same_record; [done|]. rewrite Hrec.
    apply load_calls_rds; [by left | congruence]. }
  rewrite H1. simpl.
  assert (H2 : match describe_db_instance_attribute srv with
               | Some f => set_group m' f "rds"
               | None => Ok m'
               end = Ok m').
  { destruct (describe_db_instance_attribute srv) as [f|] eqn:Hf; [|done].
    apply set_group_same_record; [done|]. rewrite Hrec.
    apply load_calls_rds; [by right | congruence]. }
  rewrite H2. simpl.
  apply set_group_same_record; [done|]. rewrite Hrec. apply load_calls_custom.
Qed.

Lemma X11_witness :
  ∃ m', load_groups demo_manager demo_server = Ok m' ∧
        load_groups m' (imported demo_server) = Ok m'.
Proof.
  apply (X11_load_groups_again_changes_nothing demo_manager demo_server).
  - exists demo_calls. reflexivity.
  - done.
  - done.
Defined.

(** ** [initialize_toolsets] *)

Lemma enabled_groups_nonempty toolsets : enabled_groups toolsets ≠ [].
Proof.
  destruct toolsets as [|s|l]; simpl; [done| |by destruct l].
  by destruct (flat_map _ _).
Qed.

(** X12. [initialize_toolsets] always enables at least one group.  On a host
    that accepts everything it registers exactly the operations whose group,
    after [load_groups], is one of the groups it enables or was enabled
    before, with their stored parameters; in particular [custom_echo] is
    registered exactly when [custom] is among these groups. *)
Theorem X12_initialize_registers_selected_groups (srv : server_module)
    (toolsets : toolsets_arg) (m : ToolsetManager) :
  reachable m →
  enabled_groups toolsets ≠ [] ∧
  ∃ m' log,
    initialize_toolsets recording_tool srv toolsets m [] = Ok (m', (log, None)) ∧
    reachable m' ∧
    (∀ f a kw, (f, a, kw) ∈ log ↔
       ∃ o, record_of m' f = Some o ∧
            (group o ∈ enabled_groups toolsets ∨ group o ∈ enabled m) ∧
            a = args o ∧ kw = kwargs o) ∧
    (custom_echo srv ∈ log.*1.*1 ↔
       "custom" ∈ enabled_groups toolsets ∨ "custom" ∈ enabled m).
Proof.
  intros Hreach. pose proof (reachable_Inv m Hreach) as HI.
  split; [apply enabled_groups_nonempty|].
  destruct (load_groups_effect m srv HI) as (m1 & Hm1 & Hrun & HI1 & He & Hrec).
  set (m' := enable m1 (enabled_groups toolsets)).
  assert (HI' : Inv m') by by apply enable_Inv.
  assert (Hsel : ∀ f a kw, (f, a, kw) ∈ selected m' ↔
            ∃ o, record_of m' f = Some o ∧
                 (group o ∈ enabled_groups toolsets ∨ group o ∈ enabled m) ∧
                 a = args o ∧ kw = kwargs o).
  { intros f a kw. rewrite selected_elem by done.
    split; intros (o & Ho & Hen & Ha & Hkw); exists o; split_and!; try done.
    - apply elem_of_enable in Hen. by rewrite He in Hen.
    - apply elem_of_enable. by rewrite He. }
  exists m', (selected m'). split_and!.
  - unfold initialize_toolsets, register_enabled_tools. rewrite Hm1. simpl.
    fold m'. by rewrite register_enabled_replay, replay_recording.
  - apply (reachable_step m1 (Enable (enabled_groups toolsets))); [|done].
    destruct Hreach as [cs Hcs]. exists (cs ++ load_calls srv).
    by rewrite run_app, Hcs.
  - done.
  - assert (Hce : group <$> record_of m' (custom_echo srv) = Some "custom").
    { change (record_of m' (custom_echo srv)) with (record_of m1 (custom_echo srv)).
      rewrite Hrec. apply load_calls_custom. }
    destruct (record_of m' (custom_echo srv)) as [o|] eqn:Ho; [|done].
    injection Hce as Hce. split.
    + intros ([f' a] & Hf' & ([[f2 a2] kw] & Heq & Hin)%list_elem_of_fmap)%list_elem_of_fmap.
      simpl in *. injection Heq as -> ->. subst f2.
      apply Hsel in Hin as (o' & Ho' & Hen & _).
      assert (o' = o) as -> by congruence. by rewrite <-Hce.
    + intros Hen. apply list_elem_of_fmap. exists (custom_echo srv, args o).
      split; [done|]. apply list_elem_of_fmap.
      exists (custom_echo srv, args o, kwargs o). split; [done|].
      apply Hsel. exists o. rewrite Hce. done.
Qed.

Lemma X12_witness :
  enabled_groups ToolsetsNone ≠ [] ∧
  ∃ m' log,
    initialize_toolsets recording_tool demo_server ToolsetsNone ToolsetManager_init []
    = Ok (m', (log, None)) ∧
    reachable m' ∧
    (∀ f a kw, (f, a, kw) ∈ log ↔
       ∃ o, record_of m' f = Some o ∧
            (group o ∈ enabled_groups ToolsetsNone
             ∨ group o ∈ enabled ToolsetManager_init) ∧
            a = args o ∧ kw = kwargs o) ∧
    (custom_echo demo_server ∈ log.*1.*1 ↔
       "custom" ∈ enabled_groups ToolsetsNone ∨ "custom" ∈ enabled ToolsetManager_init).
Proof.
  apply (X12_initialize_registers_selected_groups demo_server ToolsetsNone
           ToolsetManager_init).
  exists []. reflexivity.
Defined.

(** ** The two forms of the argument *)

Lemma split_no_sep_id sep t : ¬ str_in sep t → split sep t = [t].
Proof.
  induction t as [|c t IH]; simpl; [done|]. intros Hnin.
  destruct (Ascii.eqb_spec c sep) as [->|Hne]; [tauto|].
  rewrite IH by tauto. done.
Qed.

Lemma split_app_sep sep t rest :
  ¬ str_in sep t → split sep (t +:+ String sep rest) = t :: split sep rest.
Proof.
  induction t as [|c t IH]; intros Hnin.
  - change (split sep (String sep rest) = "" :: split sep rest).
    simpl. by rewrite Ascii.eqb_refl.
  - change (String c t +:+ String sep rest) with (String c (t +:+ String sep rest)).
    simpl in *. destruct (Ascii.eqb_spec c sep) as [->|Hne]; [tauto|].
    rewrite IH by tauto. done.
Qed.

Lemma split_join sep ts :
  ts ≠ [] → Forall (λ t, ¬ str_in sep t) ts →
  split sep (join (String sep "") ts) = ts.
Proof.
  induction ts as [|t ts IH]; [done|]. intros _ Hall.
  apply Forall_cons in Hall as [Ht Hall].
  destruct ts as [|t' ts].
  - simpl. by apply split_no_sep_id.
  - change (join (String sep "") (t :: t' :: ts))
      with (t +:+ String sep (join (String sep "") (t' :: ts))).
    rewrite split_app_sep by done. f_equal. by apply IH.
Qed.

Lemma lstrip_id t :
  (∀ c, head_char t = Some c → isspace c = false) → lstrip t = t.
Proof.
  destruct t as [|c t]; simpl; [done|]. intros Hhd. by rewrite (Hhd c).
Qed.

Lemma rstrip_id t :
  (∀ c, last_char t = Some c → isspace c = false) → rstrip t = t.
Proof.
  induction t as [|c t IH]; [done|]. intros Hlast.
  destruct t as [|c' t].
  - simpl. by rewrite (Hlast c).
  - change (rstrip (String c (String c' t)))
      with (match rstrip (String c' t) with
            | EmptyString => if isspace c then EmptyString else String c EmptyString
            | r => String c r
            end).
    rewrite IH; [done|]. intros c0 Hc0. by apply Hlast.
Qed.

Lemma strip_clean t : clean_name t → strip t = t.
Proof.
  intros (_ & _ & Hhd & Hlast). unfold strip.
  rewrite (lstrip_id t Hhd). by apply rstrip_id.
Qed.

(** X13. A list of clean group names and the same names joined by commas
    select the same groups: the string form reads back what was joined. *)
Theorem X13_string_and_list_forms_agree (l : list string) :
  Forall clean_name l →
  enabled_groups (ToolsetsStr (join "," l)) = enabled_groups (ToolsetsList l).
Proof.
  intros Hall. destruct (decide (l = [])) as [->|Hne]; [done|].
  simpl. rewrite split_join; [|done|].
  2:{ eapply Forall_impl; [exact Hall|]. by intros t (_ & ? & _). }
  f_equal. clear Hne.
  induction Hall as [|t l Ht Hall IH]; [done|]. csimpl.
  rewrite (strip_clean t Ht), IH.
  destruct Ht as (Hne & _). by destruct t.
Qed.

Lemma X13_witness :
  enabled_groups (ToolsetsStr (join "," ["rds"; "custom"]))
  = enabled_groups (ToolsetsList ["rds"; "custom"]).
Proof.
  apply (X13_string_and_list_forms_agree ["rds"; "custom"]).
  repeat constructor; try done; simpl.
  - intros [H|[H|[H|H]]]; done.
  - intros c [= <-]. reflexivity.
  - intros c [= <-]. reflexivity.
  - intros [H|[H|[H|[H|[H|[H|H]]]]]]; done.
  - intros c [= <-]. reflexivity.
  - intros c [= <-]. reflexivity.
Defined.

(** ** Group membership, from the calls *)

Lemma elem_of_note_calls cs : ∀ acc f,
  f ∈ foldl note_call acc cs ↔ f ∈ acc ∨ ∃ c, c ∈ cs ∧ call_func c = Some f.
Proof.
  induction cs as [|c cs IH]; intros acc f; simpl.
  - split; [auto|]. intros [?|(c & Hin & _)]; [done|]. by apply elem_of_nil in Hin.
  - rewrite IH. split.
    + intros [Hin|(c' & Hin & Hc')].
      * destruct c as [f0 g a kw|f0 g|gs]; simpl in Hin; [| |by left].
        -- case_decide; [by left|].
           apply elem_of_app in Hin as [?| ->%list_elem_of_singleton]; [by left|].
           right. eexists. split; [left | done].
        -- case_decide; [by left|].
           apply elem_of_app in Hin as [?| ->%list_elem_of_singleton]; [by left|].
           right. eexists. split; [left | done].
      * right. exists c'. split; [by right | done].
    + intros [Hin|(c' & [-> |Hin]%elem_of_cons & Hc')].
      * left. destruct c as [f0 g a kw|f0 g|gs]; simpl; [| |done].
        -- case_decide; [done|]. apply elem_of_app. by left.
        -- case_decide; [done|]. apply elem_of_app. by left.
      * left. destruct c as [f0 g a kw|f0 g|gs]; simpl in *; [| |done].
        -- injection Hc' as ->. case_decide; [done|].
           apply elem_of_app. right. by apply list_elem_of_singleton.
        -- injection Hc' as ->. case_decide; [done|].
           apply elem_of_app. right. by apply list_elem_of_singleton.
      * right. by exists c'.
Qed.

Lemma run_recorded cs m f :
  run ToolsetManager_init cs = Ok m →
  is_Some (dict_get (_tools m) f) ↔ ∃ c, c ∈ cs ∧ call_func c = Some f.
Proof.
  intros Hm. pose proof (run_keys cs _ _ Inv_init Hm) as Hkeys. simpl in Hkeys.
  assert (Helem : f ∈ dict_keys (_tools m) ↔ ∃ c, c ∈ cs ∧ call_func c = Some f).
  { rewrite Hkeys, elem_of_note_calls. split; [|auto].
    intros [Hin|?]; [by apply elem_of_nil in Hin | done]. }
  rewrite <-Helem. split.
  - intros [l Hl]. by eapply dict_get_Some_key.
  - intros Hin. destruct (dict_get (_tools m) f) eqn:Hf; [by eexists|].
    by apply dict_get_None in Hf.
Qed.

(** C2. After every sequence of calls on a fresh registry, an operation that
    some [add_tool] or [set_group] call of the sequence names has a record,
    the one the calls naming it produce; it is listed once in the group that
    record names, by the very record the tool map holds, and in no other
    group.  An operation no call names has no record and is listed nowhere,
    and every entry of every group's list is the record the tool map holds
    for its operation, labelled with that group. *)
Theorem C2_one_group_per_operation (cs : list call) :
  ∃ m, run ToolsetManager_init cs = Ok m ∧
    (∀ f, (∃ c, c ∈ cs ∧ call_func c = Some f) →
       ∃ l o, dict_get (_tools m) f = Some l ∧ store m !! l = Some o ∧
         func o = f ∧ foldl (assign f) None cs = Some o ∧
         ∀ g, entries m g f = (if decide (g = group o) then [l] else [])
              ∧ occurrences m g f = (if decide (g = group o) then 1 else 0)) ∧
    (∀ f, ¬ (∃ c, c ∈ cs ∧ call_func c = Some f) →
       dict_get (_tools m) f = None ∧
       ∀ g, entries m g f = [] ∧ occurrences m g f = 0) ∧
    (∀ g l, l ∈ members_of m g →
       ∃ o, store m !! l = Some o ∧ group o = g ∧
            dict_get (_tools m) (func o) = Some l).
Proof.
  destruct (run_Inv cs _ Inv_init) as (m & Hm & HI).
  exists m. split; [done|]. split_and!.
  - intros f Hnamed. apply (run_recorded cs m f Hm) in Hnamed as [l Hl].
    pose proof (entries_Inv m f HI) as He. rewrite Hl in He.
    destruct He as (o & Ho & Hfo & He). exists l, o. split_and!; [done..| |].
    + pose proof (run_record cs _ _ f Inv_init Hm) as Hrec.
      change (record_of ToolsetManager_init f) with (@None _ToolInfo) in Hrec.
      rewrite <-Hrec. unfold record_of. by rewrite Hl.
    + intros g. rewrite occurrences_entries, He. by case_decide.
  - intros f Hnot.
    assert (Hf : dict_get (_tools m) f = None).
    { destruct (dict_get (_tools m) f) as [l|] eqn:Hf; [|done].
      destruct Hnot. apply (run_recorded cs m f Hm). by eexists. }
    split; [done|]. pose proof (entries_Inv m f HI) as He. rewrite Hf in He.
    intros g. by rewrite occurrences_entries, He.
  - intros g l Hl. apply members_of_elem in Hl as (ls & Hls & Hl).
    destruct (inv_groups _ _ HI _ _ Hls) as [_ Hall].
    destruct (Hall l Hl) as (o & Ho & Hg & Ht & _). by exists o.
Qed.
